(** * brightsky/tasks.py: the enqueue scheduler [poll] and the retention
      engine [clean]

    A shallow embedding of the two task entry points of
    [src/brightsky/tasks.py] and the properties the specification states
    about them.

    - [Scheduler] embeds [poll]: the task queue (pending tasks and locks) is
      an explicit state, exceptions are an outcome, and every queue call and
      log record is written to a trace in program order.
    - [Retention] embeds [clean]: the database is a record of tables (lists
      of rows), every SQL statement is a function on it, and the row count
      of every DELETE is collected in execution order.
    - [Scenarios] holds the concrete queues and databases the examples run
      on; [SchedulerFacts] and [RetentionFacts] hold the proofs.
    - [Parse] embeds [parse] over its collaborators, with the calls it makes
      in program order; [SchedulerMore], [RetentionMore] and [ParseFacts]
      hold further properties of the three functions. *)

From Stdlib Require Import List String Ascii ZArith Lia Bool.
Import ListNotations.

Open Scope string_scope.
Open Scope Z_scope.
Open Scope list_scope.

(* ================================================================== *)
(** * Shared helpers *)

(** Python truthiness of a sequence: [if xs:] holds iff [xs] is non-empty. *)
Definition truthy {A : Type} (xs : list A) : bool :=
  match xs with
  | [] => false
  | _ :: _ => true
  end.

(** [x in xs] on a list of strings. *)
Definition str_in (x : string) (xs : list string) : bool :=
  existsb (String.eqb x) xs.

Fixpoint has_slash (s : string) : bool :=
  match s with
  | EmptyString => false
  | String c r => if Ascii.eqb c "/" then true else has_slash r
  end.

(** [os.path.basename]: what follows the last slash, the whole string when
    there is none. *)
Fixpoint basename (s : string) : string :=
  match s with
  | EmptyString => EmptyString
  | String c r =>
      if has_slash r then basename r
      else if Ascii.eqb c "/" then r
      else s
  end.

(** [s] occurs inside [t]. *)
Definition occurs_in (s t : string) : Prop :=
  exists pre post : string, t = String.append pre (String.append s post).

(* ================================================================== *)
(** * The scheduler: [poll] *)

Module Scheduler.

(** ** Data *)

(** An entry of the poller's result: a dict with the file's URL and its
    fingerprint fields. [poll] reads the URL only. *)
Record UpdatedFile : Type := mkUpdatedFile {
  url : string;
  fingerprint : string
}.

(** What [get_parser] resolves to: a parser class, of which [poll] reads
    the PRIORITY attribute. *)
Record ParserCls : Type := mkParserCls {
  PRIORITY : Z
}.

(** A queued task: its name, its positional arguments and its priority. *)
Record Task : Type := mkTask {
  name : string;
  args : list string;
  priority : Z
}.

(** Modelled from the spec: the lock table of the queue, which lives in
    brightsky/worker.py. A lock is keyed by the job key and has an age. *)
Record Lock : Type := mkLock {
  lock_key : string;
  lock_age : Z
}.

(** The queue: the tasks that are queued and not started, and the locks. *)
Record Huey : Type := mkHuey {
  pending_tasks : list Task;
  locks : list Lock
}.

(** The exceptions that can leave [poll]: no parser matches a basename, and
    indexing the empty argument tuple of a pending task. *)
Inductive Exc : Type :=
| UnknownFormat (file : string)
| IndexError.

Inductive Outcome (A : Type) : Type :=
| Returned (a : A)
| Raised (e : Exc).
Arguments Returned {A} a.
Arguments Raised {A} e.

Inductive Level : Type := DEBUG | INFO | WARNING.

(** The log records of [poll], one constructor per format string, carrying
    the arguments of the call. *)
Inductive Message : Type :=
| RemovedExpiredLocks (joined : string)
| SkippingQueued (u : string)
| SkippingRunning (u : string)
| Enqueueing (u : string)
| EnqueuedSummary (enqueued queue_size : Z).

(** What [poll] does to the outside, in program order. *)
Inductive Event : Type :=
| ExpireLocks (timeout : Z) (expired : list string)
| Pending
| IsLocked (key : string) (answer : bool)
| Resolve (file : string)
| Enqueue (t : Task)
| Logged (lvl : Level) (m : Message).

(** ** A state, exception and trace monad *)

Record Run (A : Type) : Type := mkRun {
  outcome : Outcome A;
  queue : Huey;
  trace : list Event
}.
Arguments mkRun {A} _ _ _.
Arguments outcome {A} _.
Arguments queue {A} _.
Arguments trace {A} _.

Definition M (A : Type) : Type := Huey -> Run A.

Definition ret {A : Type} (a : A) : M A :=
  fun q => mkRun (Returned a) q [].

Definition raise {A : Type} (e : Exc) : M A :=
  fun q => mkRun (Raised e) q [].

Definition bind {A B : Type} (m : M A) (k : A -> M B) : M B :=
  fun q =>
    let r := m q in
    match outcome r with
    | Returned a =>
        let r' := k a (queue r) in
        mkRun (outcome r') (queue r') (trace r ++ trace r')
    | Raised e => mkRun (Raised e) (queue r) (trace r)
    end.

Definition emit (e : Event) : M unit :=
  fun q => mkRun (Returned tt) q [e].

Definition lift {A : Type} (o : Outcome A) : M A :=
  fun q => mkRun o q [].

Notation "x <- m ;; k" := (bind m (fun x => k))
  (at level 61, m at next level, right associativity).
Notation "m ;;; k" := (bind m (fun _ => k))
  (at level 61, right associativity).

Definition log (lvl : Level) (m : Message) : M unit := emit (Logged lvl m).

(** ** The queue interface *)

Definition expired_lock (timeout : Z) (l : Lock) : bool :=
  timeout <? lock_age l.

(** Modelled from the spec: [huey.expire_locks] of brightsky/worker.py
    force-expires the locks whose age exceeds the timeout and returns their
    keys. *)
Definition expire_locks (timeout : Z) : M (list string) :=
  fun q =>
    let expired := map lock_key (filter (expired_lock timeout) (locks q)) in
    mkRun (Returned expired)
          (mkHuey (pending_tasks q)
                  (filter (fun l => negb (expired_lock timeout l)) (locks q)))
          [ExpireLocks timeout expired].

Definition locked (key : string) (q : Huey) : bool :=
  existsb (fun l => String.eqb (lock_key l) key) (locks q).

(** Modelled from the spec: [huey.is_locked] of brightsky/worker.py tells
    whether a lock is held for the key. *)
Definition is_locked (key : string) : M bool :=
  fun q => mkRun (Returned (locked key q)) q [IsLocked key (locked key q)].

(** [huey.pending()]: the tasks that are queued and not started. *)
Definition pending : M (list Task) :=
  fun q => mkRun (Returned (pending_tasks q)) q [Pending].

(** Modelled from the spec: calling the task [process] of
    brightsky/worker.py submits a job named process whose positional
    argument is the URL, with the given priority. *)
Definition process (u : string) (prio : Z) : M unit :=
  fun q =>
    let t := mkTask "process" [u] prio in
    mkRun (Returned tt) (mkHuey (pending_tasks q ++ [t]) (locks q)) [Enqueue t].

(** ** [poll] *)

(** The comprehension [[t.args[0] for t in huey.pending() if t.name == 'process']]
    over the tasks [huey.pending()] returned. *)
Fixpoint pending_urls_of (ts : list Task) : Outcome (list string) :=
  match ts with
  | [] => Returned []
  | t :: ts' =>
      if String.eqb (name t) "process" then
        match args t with
        | [] => Raised IndexError
        | a :: _ =>
            match pending_urls_of ts' with
            | Returned l => Returned (a :: l)
            | Raised e => Raised e
            end
        end
      else pending_urls_of ts'
  end.

Section Poll.

(** [get_parser] of brightsky/parsers.py, a collaborator: [None] stands for
    its failure on a file name that no parser matches. *)
Variable get_parser : string -> option ParserCls.

Definition resolve (file : string) : M ParserCls :=
  emit (Resolve file) ;;;
  match get_parser file with
  | Some cls => ret cls
  | None => raise (UnknownFormat file)
  end.

(** The [for updated_file in updated_files] loop, with the counter
    [enqueued] as an accumulator. *)
Fixpoint enqueue_loop (pending_urls : list string)
    (updated_files : list UpdatedFile) (enqueued : Z) : M Z :=
  match updated_files with
  | [] => ret enqueued
  | updated_file :: rest =>
      let u := url updated_file in
      if str_in u pending_urls then
        log DEBUG (SkippingQueued u) ;;;
        enqueue_loop pending_urls rest enqueued
      else
        running <- is_locked u ;;
        if running then
          log DEBUG (SkippingRunning u) ;;;
          enqueue_loop pending_urls rest enqueued
        else
          log DEBUG (Enqueueing u) ;;;
          parser_cls <- resolve (basename u) ;;
          process u (PRIORITY parser_cls) ;;;
          enqueue_loop pending_urls rest (enqueued + 1)
  end.

(** [poll(enqueue)]; [updated_files] is what [DWDPoller().poll()]
    returned. *)
Definition poll (updated_files : list UpdatedFile) (enqueue : bool)
  : M (list UpdatedFile) :=
  if enqueue then
    expired_locks <- expire_locks 1800 ;;
    (if truthy expired_locks
     then log WARNING (RemovedExpiredLocks (String.concat ", " expired_locks))
     else ret tt) ;;;
    tasks <- pending ;;
    pending_urls <- lift (pending_urls_of tasks) ;;
    enqueued <- enqueue_loop pending_urls updated_files 0 ;;
    log INFO (EnqueuedSummary enqueued
                (enqueued + Z.of_nat (List.length pending_urls))) ;;;
    ret updated_files
  else
    ret updated_files.

End Poll.

(** ** Observations on a trace *)

(** The tasks submitted, in order. *)
Fixpoint submissions (tr : list Event) : list Task :=
  match tr with
  | [] => []
  | Enqueue t :: tr' => t :: submissions tr'
  | _ :: tr' => submissions tr'
  end.

(** The URL a [process] job is for. *)
Definition job_for (u : string) (t : Task) : bool :=
  String.eqb (name t) "process" &&
  match args t with
  | a :: _ => String.eqb a u
  | [] => false
  end.

(** How many jobs the trace submits for the URL. *)
Definition jobs_submitted (u : string) (tr : list Event) : nat :=
  List.length (filter (job_for u) (submissions tr)).

(** How often the URL is discovered. *)
Definition discovered (u : string) (fs : list UpdatedFile) : nat :=
  List.length (filter (fun f => String.eqb (url f) u) fs).

(** The keys that [huey.expire_locks(1800)] expires, and the queue it
    leaves. *)
Definition expired_keys (q : Huey) : list string :=
  map lock_key (filter (expired_lock 1800) (locks q)).

Definition after_expiry (q : Huey) : Huey :=
  queue (expire_locks 1800 q).

(** What [poll] does before it enters the loop. *)
Definition prologue (q : Huey) : list Event :=
  ExpireLocks 1800 (expired_keys q) ::
  (if truthy (expired_keys q)
   then [Logged WARNING
           (RemovedExpiredLocks (String.concat ", " (expired_keys q)))]
   else []) ++
  [Pending].

(** The loop would submit a job for the file if it reached it: its URL is
    neither pending nor locked. *)
Definition eligible (pending_urls : list string) (q : Huey)
    (f : UpdatedFile) : Prop :=
  str_in (url f) pending_urls = false /\ locked (url f) q = false.


End Scheduler.

(* ================================================================== *)
(** * The retention engine: [clean] *)

Module Retention.

(** ** Data *)

(** Modelled from the spec: a row of the [sources] catalogue, whose table
    declaration is not in tasks.py. Timestamps are seconds on the integer
    line; the two bounds can be absent (SQL NULL). *)
Record Source : Type := mkSource {
  id : Z;
  wmo_station_id : string;
  dwd_station_id : string;
  observation_type : string;
  first_record : option Z;
  last_record : option Z
}.

(** Modelled from the spec: a row of a time-series table ([weather],
    [synop]). [clean] reads the owning source and the timestamp; the
    measured values are carried along. *)
Record Row : Type := mkRow {
  source_id : Z;
  timestamp : Z;
  measurements : list Z
}.

(** Modelled from the spec: an entry of the [parsed_files] ledger. *)
Record ParsedFile : Type := mkParsedFile {
  url : string;
  parsed_at : Z
}.

(** The tables that [expiry_intervals] names. *)
Inductive TableName : Type := Weather | Synop.

Record Database : Type := mkDatabase {
  sources : list Source;
  weather : list Row;
  synop : list Row;
  parsed_files : list ParsedFile
}.

Definition table_rows (t : TableName) (d : Database) : list Row :=
  match t with
  | Weather => weather d
  | Synop => synop d
  end.

Definition set_table (t : TableName) (rows : list Row) (d : Database)
  : Database :=
  match t with
  | Weather => mkDatabase (sources d) rows (synop d) (parsed_files d)
  | Synop => mkDatabase (sources d) (weather d) rows (parsed_files d)
  end.

Definition set_sources (ss : list Source) (d : Database) : Database :=
  mkDatabase ss (weather d) (synop d) (parsed_files d).

Definition set_parsed_files (fs : list ParsedFile) (d : Database)
  : Database :=
  mkDatabase (sources d) (weather d) (synop d) fs.

(** The cursor's view of a run: the database, and [cur.rowcount] of every
    DELETE executed so far, in order. *)
Record Session : Type := mkSession {
  db : Database;
  rowcounts : list nat
}.

(** ** SQL fragments *)

(** [a < b] in a WHERE clause: a comparison with NULL does not select. *)
Definition sql_lt (a b : option Z) : bool :=
  match a, b with
  | Some x, Some y => x <? y
  | _, _ => false
  end.

(** MIN and MAX over a column: NULL over no rows. *)
Fixpoint sql_min (ts : list Z) : option Z :=
  match ts with
  | [] => None
  | t :: ts' =>
      match sql_min ts' with
      | None => Some t
      | Some m => Some (Z.min t m)
      end
  end.

Fixpoint sql_max (ts : list Z) : option Z :=
  match ts with
  | [] => None
  | t :: ts' =>
      match sql_max ts' with
      | None => Some t
      | Some m => Some (Z.max t m)
      end
  end.

(** [s LIKE pat]: the percent sign matches any run of characters, the
    underscore any one character. The source's only pattern has no escape
    character, and none is interpreted here. *)
Fixpoint like (pat s : string) : bool :=
  match pat with
  | EmptyString =>
      match s with
      | EmptyString => true
      | String _ _ => false
      end
  | String c pat' =>
      if Ascii.eqb c "%"%char then
        (fix any (s : string) : bool :=
           like pat' s ||
           match s with
           | EmptyString => false
           | String _ s' => any s'
           end) s
      else
        match s with
        | EmptyString => false
        | String d s' =>
            (Ascii.eqb c "_"%char || Ascii.eqb c d) && like pat' s'
        end
  end.

(** DELETE FROM a table WHERE [cond]: the rows that stay, and the row
    count the cursor reports. *)
Definition delete_where {A : Type} (cond : A -> bool) (rows : list A)
  : list A :=
  filter (fun x => negb (cond x)) rows.

Definition rowcount_where {A : Type} (cond : A -> bool) (rows : list A)
  : nat :=
  List.length (filter cond rows).

Definition hours (n : Z) : Z := n * 3600.
Definition weeks (n : Z) : Z := n * 7 * 24 * 3600.

(** ** Pass A: obsolete rows of recent sources *)

(** The ON and WHERE clauses of the self-join of [sources]. *)
Definition superseded (s_recent s_historical : Source) : bool :=
  String.eqb (wmo_station_id s_recent) (wmo_station_id s_historical) &&
  String.eqb (dwd_station_id s_recent) (dwd_station_id s_historical) &&
  String.eqb (observation_type s_recent) "recent" &&
  String.eqb (observation_type s_historical) "historical" &&
  sql_lt (first_record s_recent) (last_record s_historical).

(** The SELECT: the rows [(id, threshold)] of [cur.fetchall()]. *)
Definition obsolete_recent (ss : list Source) : list (Z * Z) :=
  flat_map
    (fun s_recent =>
       flat_map
         (fun s_historical =>
            if superseded s_recent s_historical then
              match last_record s_historical with
              | Some threshold => [(id s_recent, threshold)]
              | None => []
              end
            else [])
         ss)
    ss.

(** WHERE source_id = %s AND timestamp < %s *)
Definition obsolete (row : Z * Z) (x : Row) : bool :=
  (source_id x =? fst row) && (timestamp x <? snd row).

Definition delete_obsolete (s : Session) (row : Z * Z) : Session :=
  mkSession
    (set_table Weather (delete_where (obsolete row) (weather (db s))) (db s))
    (rowcounts s ++ [rowcount_where (obsolete row) (weather (db s))]).

Definition pass_a (s : Session) : Session :=
  fold_left delete_obsolete (obsolete_recent (sources (db s))) s.

(** ** Pass B: expiry by age, and the bounds of the sources *)

Definition expiry_intervals : list (TableName * list (string * Z)) :=
  [ (Weather, [("forecast", hours 3); ("current", hours 48)]);
    (Synop, [("synop", hours 30)]) ].

(** SELECT id FROM sources WHERE observation_type = %s *)
Definition ids_of_type (obs : string) (ss : list Source) : list Z :=
  map id (filter (fun s => String.eqb (observation_type s) obs) ss).

(** WHERE source_id IN (...) AND timestamp < current_timestamp - interval *)
Definition outdated (ids : list Z) (now interval : Z) (x : Row) : bool :=
  existsb (Z.eqb (source_id x)) ids && (timestamp x <? now - interval).

Definition delete_outdated (now : Z) (table : TableName) (s : Session)
    (entry : string * Z) : Session :=
  let cond := outdated (ids_of_type (fst entry) (sources (db s)))
                       now (snd entry) in
  mkSession
    (set_table table (delete_where cond (table_rows table (db s))) (db s))
    (rowcounts s ++ [rowcount_where cond (table_rows table (db s))]).

(** A row of the subquery [record_range]. *)
Record Range : Type := mkRange {
  range_source_id : Z;
  range_first : option Z;
  range_last : option Z
}.

Definition timestamps_of (sid : Z) (rows : list Row) : list Z :=
  map timestamp (filter (fun x => source_id x =? sid) rows).

(** SELECT source_id, MIN(timestamp), MAX(timestamp) ... GROUP BY source_id *)
Definition record_range (rows : list Row) : list Range :=
  map (fun sid =>
         mkRange sid (sql_min (timestamps_of sid rows))
                     (sql_max (timestamps_of sid rows)))
      (nodup Z.eq_dec (map source_id rows)).

(** UPDATE sources SET ... FROM record_range WHERE sources.id =
    record_range.source_id, on one row of [sources]. *)
Definition update_source (ranges : list Range) (s : Source) : Source :=
  match find (fun g => range_source_id g =? id s) ranges with
  | Some g =>
      mkSource (id s) (wmo_station_id s) (dwd_station_id s)
               (observation_type s) (range_first g) (range_last g)
  | None => s
  end.

Definition update_bounds (table : TableName) (s : Session) : Session :=
  mkSession
    (set_sources
       (map (update_source (record_range (table_rows table (db s))))
            (sources (db s)))
       (db s))
    (rowcounts s).

(** One round of the loop over [expiry_intervals.items()]. *)
Definition expire_table (now : Z) (s : Session)
    (entry : TableName * list (string * Z)) : Session :=
  update_bounds (fst entry)
    (fold_left (delete_outdated now (fst entry)) (snd entry) s).

Definition pass_b (now : Z) (s : Session) : Session :=
  fold_left (expire_table now) expiry_intervals s.

(** ** Pass C: the ledger of parsed files *)

Definition parsed_files_expiry_intervals : list (string * Z) :=
  [ ("%/Z__C_EDZW_%", weeks 1) ].

(** WHERE url LIKE %s AND parsed_at < current_timestamp - interval *)
Definition stale_file (now : Z) (entry : string * Z) (f : ParsedFile)
  : bool :=
  like (fst entry) (url f) && (parsed_at f <? now - snd entry).

Definition delete_parsed (now : Z) (s : Session) (entry : string * Z)
  : Session :=
  mkSession
    (set_parsed_files
       (delete_where (stale_file now entry) (parsed_files (db s))) (db s))
    (rowcounts s ++ [rowcount_where (stale_file now entry)
                                    (parsed_files (db s))]).

Definition pass_c (now : Z) (s : Session) : Session :=
  fold_left (delete_parsed now) parsed_files_expiry_intervals s.

(** ** [clean] *)

(** [clean()], run on the database [d] when [current_timestamp] is
    [now]. *)
Definition clean (now : Z) (d : Database) : Session :=
  pass_c now (pass_b now (pass_a (mkSession d []))).

(** ** Observations *)

(** The rows of a table that belong to a source. *)
Definition rows_of (sid : Z) (rows : list Row) : list Row :=
  filter (fun x => source_id x =? sid) rows.

(** The columns of a source that identify it. *)
Definition same_identity (s s' : Source) : Prop :=
  id s' = id s /\
  wmo_station_id s' = wmo_station_id s /\
  dwd_station_id s' = dwd_station_id s /\
  observation_type s' = observation_type s.

(** A run deleted no row: every DELETE reported a row count of zero. *)
Definition no_deletions (s : Session) : Prop :=
  Forall (fun n => n = 0%nat) (rowcounts s).

(** The bounds of the source are the least and the greatest timestamp of
    the rows. *)
Definition recomputed_bounds (rows : list Row) (src : Source) : Prop :=
  exists lo hi,
    first_record src = Some lo /\ last_record src = Some hi /\
    In lo (map timestamp rows) /\ In hi (map timestamp rows) /\
    forall x, In x rows -> lo <= timestamp x <= hi.

(** The data model's conditions on the catalogue: [id] is its key, and it
    has one row per station and observation type. *)
Definition primary_key (ss : list Source) : Prop :=
  NoDup (map id ss).

Definition one_row_per_station_and_type (ss : list Source) : Prop :=
  forall s s', In s ss -> In s' ss ->
    wmo_station_id s = wmo_station_id s' ->
    dwd_station_id s = dwd_station_id s' ->
    observation_type s = observation_type s' ->
    s = s'.

(** The data model's condition on the bounds: every stored row of a source
    lies within the source's first and last record. *)
Definition bounds_enclose (d : Database) : Prop :=
  forall src x,
    In src (sources d) ->
    In x (weather d) \/ In x (synop d) ->
    source_id x = id src ->
    exists lo hi,
      first_record src = Some lo /\ last_record src = Some hi /\
      lo <= timestamp x <= hi.

End Retention.

(* ================================================================== *)
(** * Concrete scenarios *)

Module Scenarios.

Import Scheduler.

(** A parser registry that knows two file names. *)
Definition registry (file : string) : option ParserCls :=
  if String.eqb file "stundenwerte_TU_01234_akt.zip" then
    Some (mkParserCls 2)
  else if String.eqb file "MOSMIX_S_LATEST_240.kmz" then
    Some (mkParserCls 10)
  else None.

Definition observations_file : UpdatedFile :=
  mkUpdatedFile "https://dwd.example/recent/stundenwerte_TU_01234_akt.zip"
                "2024-01-15/4711".

Definition forecast_file : UpdatedFile :=
  mkUpdatedFile "https://dwd.example/mosmix/MOSMIX_S_LATEST_240.kmz"
                "2024-01-15/815".

Definition unknown_file : UpdatedFile :=
  mkUpdatedFile "https://dwd.example/recent/BESCHREIBUNG.pdf"
                "2024-01-15/1".

Definition idle_queue : Huey := mkHuey [] [].

(** A queue with one foreign task, one fresh lock and one stale lock. *)
Definition busy_queue : Huey :=
  mkHuey [mkTask "clean" [] 0]
         [mkLock (url forecast_file) 60;
          mkLock "https://dwd.example/recent/crashed.zip" 4000].

Import Retention.

(** Midnight of the given day of January 2024, in seconds. *)
Definition january (day : Z) : Z := 1704067200 + (day - 1) * 86400.

(** The station of the specification's scenario: a recent source A and a
    historical source B, and rows of A on the second and the fifteenth. *)
Definition source_a : Source :=
  mkSource 1 "10001" "01234" "recent" (Some (january 1)) (Some (january 15)).

Definition source_b : Source :=
  mkSource 2 "10001" "01234" "historical"
           (Some (january 1 - 365 * 86400)) (Some (january 10)).

Definition station_db : Database :=
  mkDatabase [source_a; source_b]
             [mkRow 1 (january 2) [12]; mkRow 1 (january 15) [9];
              mkRow 2 (january 10) [11]]
             []
             [].

(** A forecast source with one row that is exactly three hours old at noon
    of the fifteenth. *)
Definition noon : Z := january 15 + 12 * 3600.

Definition forecast_db : Database :=
  mkDatabase
    [mkSource 7 "10001" "01234" "forecast"
              (Some (noon - hours 3)) (Some (noon - hours 3))]
    [mkRow 7 (noon - hours 3) [4]]
    []
    [].

(** A synop source whose rows are all younger than thirty hours at noon of
    the fifteenth, a current source without rows, and a ledger entry. *)
Definition synop_db : Database :=
  mkDatabase
    [mkSource 3 "10001" "01234" "synop" (Some (noon - hours 40)) (Some noon);
     mkSource 4 "10001" "01234" "current" (Some (january 1)) (Some (january 2))]
    []
    [mkRow 3 (noon - 3600) [1]; mkRow 3 (noon - 7200) [2];
     mkRow 3 (noon - hours 40) [3]]
    [mkParsedFile "https://dwd.example/synop/Z__C_EDZW_20240115.bin"
                  (january 2)].

(** The catalogue of [station_db] with the first record of source A set
    later than its rows. *)
Definition stale_db : Database :=
  mkDatabase
    [mkSource 1 "10001" "01234" "recent" (Some (january 20)) (Some (january 20));
     source_b]
    (weather station_db) [] [].

End Scenarios.

(* ================================================================== *)
(** * Single-file processing: [parse] *)

Module Parse.

(** The exceptions that can leave [parse]: its own ValueError, and the
    failure to resolve a parser for the file name. *)
Inductive Exc : Type :=
| ValueError
| NoParser (file : string).

Inductive Outcome (A : Type) : Type :=
| Returned (a : A)
| Raised (e : Exc).
Arguments Returned {A} a.
Arguments Raised {A} e.

(** Truthiness of an optional string argument: [None] and the empty string
    are false. *)
Definition given (s : option string) : bool :=
  match s with
  | Some (String _ _) => true
  | _ => false
  end.

(** [path or url], once one of the two is known to be given. *)
Definition path_or_url (path url : option string) : string :=
  if given path then
    match path with
    | Some p => p
    | None => EmptyString
    end
  else
    match url with
    | Some u => u
    | None => EmptyString
    end.

Section Parse.

(** The parser classes, the records they yield and the values of a
    fingerprint are those of the collaborators. *)
Variable Cls : Type.
Variable Rec : Type.
Variable Value : Type.

(** A dict with string keys, in insertion order. *)
Definition Dict : Type := list (string * Value).

(** [d[k] = v]: the value is replaced where the key is, and the entry is
    appended when the key is new. *)
Fixpoint dict_set (k : string) (v : Value) (d : Dict) : Dict :=
  match d with
  | [] => [(k, v)]
  | (k', v') :: d' =>
      if String.eqb k' k then (k', v) :: d'
      else (k', v') :: dict_set k v d'
  end.

Fixpoint dict_get (k : string) (d : Dict) : option Value :=
  match d with
  | [] => None
  | (k', v') :: d' => if String.eqb k' k then Some v' else dict_get k d'
  end.

(** The dict display [{**d, **more}]: the entries of [more] are set in
    order. *)
Definition dict_merge (d more : Dict) : Dict :=
  fold_left (fun acc kv => dict_set (fst kv) (snd kv) acc) more d.

(** The collaborators, as functions of what [parse] hands them:
    [get_parser] with [None] for its failure, the path the parser holds
    after [download()], [dwd_fingerprint], the records of [parser.parse()],
    and the string as a fingerprint value. *)
Variable get_parser : string -> option Cls.
Variable downloaded_path : Cls -> option string -> string -> string.
Variable dwd_fingerprint : string -> Dict.
Variable parsed : Cls -> option string -> option string -> list Rec.
Variable of_str : string -> Value.

(** What [parse] asks of its collaborators, in program order. *)
Inductive Call : Type :=
| Resolve (file : string)
| Construct (cls : Cls) (path url : option string)
| Download
| Fingerprint (path : string)
| ParseFile
| Cleanup
| Export (records : list Rec) (fingerprint : option Dict).

Record Run : Type := mkRun {
  outcome : Outcome (list Rec);
  calls : list Call
}.

(** [parse(path, url, export)]. *)
Definition parse (path url : option string) (export : bool) : Run :=
  if negb (given path) && negb (given url) then
    mkRun (Raised ValueError) []
  else
    let file := basename (path_or_url path url) in
    match get_parser file with
    | None => mkRun (Raised (NoParser file)) [Resolve file]
    | Some parser_cls =>
        let fetched :=
          match url with
          | Some u =>
              if given url then
                ([Download; Fingerprint (downloaded_path parser_cls path u)],
                 Some (dict_merge [("url", of_str u)]
                         (dwd_fingerprint (downloaded_path parser_cls path u))))
              else ([], None)
          | None => ([], None)
          end in
        let records := parsed parser_cls path url in
        mkRun (Returned records)
              ([Resolve file; Construct parser_cls path url]
                 ++ fst fetched
                 ++ [ParseFile; Cleanup]
                 ++ (if export then [Export records (snd fetched)] else []))
    end.

End Parse.

Arguments Resolve {Cls Rec Value} file.
Arguments Construct {Cls Rec Value} cls path url.
Arguments Download {Cls Rec Value}.
Arguments Fingerprint {Cls Rec Value} path.
Arguments ParseFile {Cls Rec Value}.
Arguments Cleanup {Cls Rec Value}.
Arguments Export {Cls Rec Value} records fingerprint.
Arguments mkRun {Cls Rec Value} outcome calls.
Arguments outcome {Cls Rec Value} r.
Arguments calls {Cls Rec Value} r.

End Parse.

(** Collaborators to run [parse] on: a registry that knows one file name,
    a download into a scratch directory, a fingerprint of two entries, and
    three records. *)
Module ParseScenario.

Definition classes (file : string) : option string :=
  if String.eqb file "stundenwerte_TU_01234_akt.zip"
  then Some "ObservationsParser"
  else None.

Definition fetch (cls : string) (path : option string) (u : string)
  : string :=
  String.append "/tmp/" (basename u).

Definition stat (path : string) : Parse.Dict string :=
  [("last_modified", "2024-01-15 10:00"); ("file_size", "4711")].

Definition read (cls : string) (path url : option string) : list Z :=
  [1; 2; 3].

Definition run (path url : option string) (export : bool)
  : Parse.Run string Z string :=
  Parse.parse string Z string classes fetch stat read (fun s => s)
              path url export.

Definition observations_url : string :=
  "https://dwd.example/recent/stundenwerte_TU_01234_akt.zip".

End ParseScenario.

(* ================================================================== *)
(** * Further observations *)

Module Views.

Import Scheduler.

(** The test of the comprehension over the pending tasks. *)
Definition is_process (t : Task) : bool :=
  String.eqb (name t) "process".

(** The first positional argument of each task that has one. *)
Definition first_args (ts : list Task) : list string :=
  flat_map (fun t => firstn 1 (args t)) ts.

(** The loop's test on a URL, as a boolean. *)
Definition eligible_url (pending_urls : list string) (q : Huey)
    (u : string) : bool :=
  negb (str_in u pending_urls) && negb (locked u q).

(** The summaries a trace logs. *)
Fixpoint summaries (tr : list Event) : list (Z * Z) :=
  match tr with
  | [] => []
  | Logged INFO (EnqueuedSummary n size) :: tr' => (n, size) :: summaries tr'
  | _ :: tr' => summaries tr'
  end.

(** A queue in which a worker died on one URL long ago. *)
Definition crashed_queue : Huey :=
  mkHuey [mkTask "clean" ["https://dwd.example/recent/other.zip"] 0]
         [mkLock "https://dwd.example/recent/stundenwerte_TU_01234_akt.zip"
                 7200].

(** A queue with a process task that was queued without a positional
    argument. *)
Definition malformed_queue : Huey :=
  mkHuey [mkTask "process" [] 0]
         [mkLock "https://dwd.example/recent/crashed.zip" 4000].

Import Retention.



(** The observation types whose rows a table can lose: those the table
    expires by age, and for [weather] the recent ones that Pass A prunes. *)
Definition purged_types (t : TableName) : list string :=
  match t with
  | Weather => ["recent"; "forecast"; "current"]
  | Synop => ["synop"]
  end.

(** No source owns rows in both time-series tables. *)
Definition tables_disjoint (d : Database) : Prop :=
  forall x y, In x (weather d) -> In y (synop d) ->
              source_id x <> source_id y.

(** The shape the ledger pattern selects: a slash and a Z, two characters,
    a C, one character, EDZW, one character, and anything around. *)
Definition station_metadata_shape (s : string) : Prop :=
  exists (pre post : string) (a b c e : ascii),
    s = String.append pre
          (String "/" (String "Z" (String a (String b (String "C"
            (String c (String "E" (String "D" (String "Z" (String "W"
              (String e post))))))))))).

End Views.

(* ================================================================== *)
(** * Facts about the scheduler *)

Module SchedulerFacts.

Import Scheduler.

(** ** Traces and submissions *)

Lemma submissions_app (tr1 tr2 : list Event) :
  submissions (tr1 ++ tr2) = submissions tr1 ++ submissions tr2.
Proof.
  induction tr1 as [|e tr1 IH]; simpl; [reflexivity|].
  destruct e; simpl; rewrite IH; reflexivity.
Qed.

Lemma jobs_submitted_app (u : string) (tr1 tr2 : list Event) :
  jobs_submitted u (tr1 ++ tr2)
  = (jobs_submitted u tr1 + jobs_submitted u tr2)%nat.
Proof.
  unfold jobs_submitted.
  rewrite submissions_app, filter_app, length_app. reflexivity.
Qed.

Lemma submissions_prologue (q : Huey) : submissions (prologue q) = [].
Proof.
  unfold prologue. simpl. destruct (truthy (expired_keys q)); reflexivity.
Qed.

Lemma job_for_process (u v : string) (p : Z) :
  job_for u (mkTask "process" [v] p) = String.eqb v u.
Proof. reflexivity. Qed.

Lemma jobs_submitted_enqueue (u v : string) (p : Z) (tr : list Event) :
  jobs_submitted u (Enqueue (mkTask "process" [v] p) :: tr)
  = ((if String.eqb v u then 1 else 0) + jobs_submitted u tr)%nat.
Proof.
  unfold jobs_submitted. simpl submissions. simpl filter.
  rewrite job_for_process. destruct (String.eqb v u); reflexivity.
Qed.

(** ** Locks *)

Lemma locked_iff (u : string) (q : Huey) :
  locked u q = true <-> exists l, In l (locks q) /\ lock_key l = u.
Proof.
  unfold locked. rewrite existsb_exists.
  split; intros [l [Hin Hk]]; exists l; split; auto.
  - apply String.eqb_eq; assumption.
  - apply String.eqb_eq; assumption.
Qed.

Lemma locks_after_expiry (q : Huey) :
  locks (after_expiry q)
  = filter (fun l => negb (expired_lock 1800 l)) (locks q).
Proof. reflexivity. Qed.

Lemma pending_after_expiry (q : Huey) :
  pending_tasks (after_expiry q) = pending_tasks q.
Proof. reflexivity. Qed.

(** Expiry only removes locks. *)
Lemma unlocked_after_expiry (u : string) (q : Huey) :
  locked u q = false -> locked u (after_expiry q) = false.
Proof.
  intros H. destruct (locked u (after_expiry q)) eqn:E; [|reflexivity].
  apply locked_iff in E. destruct E as [l [Hin Hk]].
  rewrite locks_after_expiry in Hin. apply filter_In in Hin.
  assert (locked u q = true) as H'.
  { apply locked_iff. exists l. tauto. }
  congruence.
Qed.

(** ** Pending URLs *)

Lemma pending_urls_of_In (ts : list Task) (urls : list string)
    (t : Task) (u : string) :
  pending_urls_of ts = Returned urls ->
  In t ts -> job_for u t = true -> str_in u urls = true.
Proof.
  revert urls. induction ts as [|t0 ts IH]; intros urls Hp Hin Hj.
  - contradiction.
  - simpl in Hp. destruct Hin as [->|Hin].
    + unfold job_for in Hj. apply andb_prop in Hj. destruct Hj as [Hn Ha].
      rewrite Hn in Hp. destruct (args t) as [|a rest]; [discriminate|].
      destruct (pending_urls_of ts); [|discriminate].
      injection Hp as <-. apply String.eqb_eq in Ha. subst a.
      unfold str_in. simpl. rewrite String.eqb_refl. reflexivity.
    + destruct (String.eqb (name t0) "process").
      * destruct (args t0) as [|a rest]; [discriminate|].
        destruct (pending_urls_of ts) as [l|]; [|discriminate].
        injection Hp as <-. unfold str_in. simpl.
        apply orb_true_iff. right. apply (IH l); auto.
      * apply IH; auto.
Qed.

(** ** The loop, one file at a time *)

Section Loop.

Variable get_parser : string -> option ParserCls.

Abbreviation loop := (enqueue_loop get_parser).

Lemma loop_queued pend f rest n q :
  str_in (url f) pend = true ->
  loop pend (f :: rest) n q
  = mkRun (outcome (loop pend rest n q)) (queue (loop pend rest n q))
          (Logged DEBUG (SkippingQueued (url f)) :: trace (loop pend rest n q)).
Proof. intros H. simpl. rewrite H. reflexivity. Qed.

Lemma loop_running pend f rest n q :
  str_in (url f) pend = false ->
  locked (url f) q = true ->
  loop pend (f :: rest) n q
  = mkRun (outcome (loop pend rest n q)) (queue (loop pend rest n q))
          (IsLocked (url f) true :: Logged DEBUG (SkippingRunning (url f))
             :: trace (loop pend rest n q)).
Proof.
  intros H1 H2. simpl. rewrite H1. unfold bind, is_locked. simpl.
  rewrite H2. reflexivity.
Qed.

Lemma loop_unknown pend f rest n q :
  str_in (url f) pend = false ->
  locked (url f) q = false ->
  get_parser (basename (url f)) = None ->
  loop pend (f :: rest) n q
  = mkRun (Raised (UnknownFormat (basename (url f)))) q
          [IsLocked (url f) false; Logged DEBUG (Enqueueing (url f));
           Resolve (basename (url f))].
Proof.
  intros H1 H2 H3. simpl. rewrite H1. unfold bind, is_locked, resolve. simpl.
  rewrite H2. simpl. unfold bind. simpl. rewrite H3. reflexivity.
Qed.

Lemma loop_submit pend f rest n q cls :
  str_in (url f) pend = false ->
  locked (url f) q = false ->
  get_parser (basename (url f)) = Some cls ->
  loop pend (f :: rest) n q
  = mkRun
      (outcome (loop pend rest (n + 1)
         (mkHuey (pending_tasks q ++ [mkTask "process" [url f] (PRIORITY cls)])
                 (locks q))))
      (queue (loop pend rest (n + 1)
         (mkHuey (pending_tasks q ++ [mkTask "process" [url f] (PRIORITY cls)])
                 (locks q))))
      (IsLocked (url f) false :: Logged DEBUG (Enqueueing (url f))
         :: Resolve (basename (url f))
         :: Enqueue (mkTask "process" [url f] (PRIORITY cls))
         :: trace (loop pend rest (n + 1)
              (mkHuey
                 (pending_tasks q ++ [mkTask "process" [url f] (PRIORITY cls)])
                 (locks q)))).
Proof.
  intros H1 H2 H3. simpl. rewrite H1. unfold bind, is_locked, resolve. simpl.
  rewrite H2. simpl. unfold bind. simpl. rewrite H3. reflexivity.
Qed.

(** The four ways one round of the loop can go. *)
Ltac loop_round pend f q :=
  let Hq := fresh "Hqueued" in
  let Hl := fresh "Hlocked" in
  let Hp := fresh "Hparser" in
  let cls := fresh "cls" in
  destruct (str_in (url f) pend) eqn:Hq;
  [ rewrite !loop_queued by assumption
  | destruct (locked (url f) q) eqn:Hl;
    [ rewrite !loop_running by assumption
    | destruct (get_parser (basename (url f))) as [cls|] eqn:Hp;
      [ rewrite !(loop_submit pend f _ _ q cls) by assumption
      | rewrite !loop_unknown by assumption ] ] ].

(** The loop leaves the locks alone and appends what it submits. *)
Lemma loop_queue files : forall pend n q,
  locks (queue (loop pend files n q)) = locks q /\
  pending_tasks (queue (loop pend files n q))
  = pending_tasks q ++ submissions (trace (loop pend files n q)).
Proof.
  induction files as [|f rest IH]; intros pend n q.
  - simpl. rewrite app_nil_r. auto.
  - loop_round pend f q; simpl.
    + apply IH.
    + apply IH.
    + destruct (IH pend (n + 1)
        (mkHuey (pending_tasks q ++ [mkTask "process" [url f] (PRIORITY cls)])
                (locks q))) as [IH1 IH2].
      split; [exact IH1|]. rewrite IH2. simpl. rewrite <- app_assoc.
      reflexivity.
    + rewrite app_nil_r. auto.
Qed.

(** A URL that is pending or locked gets no job. *)
Lemma loop_skips files : forall pend n q u,
  str_in u pend = true \/ locked u q = true ->
  jobs_submitted u (trace (loop pend files n q)) = 0%nat.
Proof.
  induction files as [|f rest IH]; intros pend n q u Hu.
  - reflexivity.
  - loop_round pend f q; simpl.
    + apply IH; assumption.
    + apply IH; assumption.
    + change (jobs_submitted u
                (Enqueue (mkTask "process" [url f] (PRIORITY cls))
                   :: trace (loop pend rest (n + 1)
                        (mkHuey (pending_tasks q ++
                                   [mkTask "process" [url f] (PRIORITY cls)])
                                (locks q)))) = 0%nat).
      rewrite jobs_submitted_enqueue.
      destruct (String.eqb (url f) u) eqn:E.
      * apply String.eqb_eq in E. subst u. destruct Hu; congruence.
      * apply (IH pend (n + 1)
          (mkHuey (pending_tasks q ++ [mkTask "process" [url f] (PRIORITY cls)])
                  (locks q)) u).
        exact Hu.
    + reflexivity.
Qed.

(** When the loop completes, the counter counts the submissions, and a URL
    that is neither pending nor locked has a job for each time it was
    discovered. *)
Lemma loop_counts files : forall pend n q m,
  outcome (loop pend files n q) = Returned m ->
  m = n + Z.of_nat (List.length (submissions (trace (loop pend files n q))))
  /\
  forall u, str_in u pend = false -> locked u q = false ->
    jobs_submitted u (trace (loop pend files n q)) = discovered u files.
Proof.
  induction files as [|f rest IH]; intros pend n q m Hm.
  - simpl in *. injection Hm as <-. split; [lia|reflexivity].
  - revert Hm. loop_round pend f q; simpl; intros Hm.
    + destruct (IH pend n q m Hm) as [IH1 IH2]. split; [exact IH1|].
      intros u Hu1 Hu2. unfold discovered. simpl.
      destruct (String.eqb (url f) u) eqn:E.
      * apply String.eqb_eq in E. congruence.
      * apply IH2; assumption.
    + destruct (IH pend n q m Hm) as [IH1 IH2]. split; [exact IH1|].
      intros u Hu1 Hu2. unfold discovered. simpl.
      destruct (String.eqb (url f) u) eqn:E.
      * apply String.eqb_eq in E. congruence.
      * apply IH2; assumption.
    + destruct (IH pend (n + 1) _ m Hm) as [IH1 IH2]. split.
      * rewrite IH1. lia.
      * intros u Hu1 Hu2.
        change (jobs_submitted u
                  (Enqueue (mkTask "process" [url f] (PRIORITY cls))
                     :: trace (loop pend rest (n + 1)
                          (mkHuey (pending_tasks q ++
                                     [mkTask "process" [url f] (PRIORITY cls)])
                                  (locks q))))
                = discovered u (f :: rest)).
        rewrite jobs_submitted_enqueue, (IH2 u Hu1 Hu2).
        unfold discovered. simpl.
        destruct (String.eqb (url f) u); reflexivity.
    + discriminate.
Qed.

(** The loop completes when every file it would submit has a parser. *)
Lemma loop_returns files : forall pend n q,
  (forall f, In f files -> eligible pend q f ->
             get_parser (basename (url f)) <> None) ->
  exists m, outcome (loop pend files n q) = Returned m.
Proof.
  induction files as [|f rest IH]; intros pend n q Hres.
  - exists n. reflexivity.
  - assert (forall g, In g rest -> eligible pend q g ->
                      get_parser (basename (url g)) <> None) as Hrest.
    { intros g Hg. apply Hres. right. exact Hg. }
    loop_round pend f q; simpl.
    + apply IH; assumption.
    + apply IH; assumption.
    + apply IH. exact Hrest.
    + exfalso. apply (Hres f); [left; reflexivity|split; assumption|assumption].
Qed.

(** Every job the loop submits is the job of a discovered file that is
    neither pending nor locked and has a parser. *)
Lemma loop_submissions files : forall pend n q t,
  In t (submissions (trace (loop pend files n q))) ->
  exists f cls, In f files /\ eligible pend q f /\
    get_parser (basename (url f)) = Some cls /\
    t = mkTask "process" [url f] (PRIORITY cls).
Proof.
  induction files as [|f rest IH]; intros pend n q t.
  - simpl. contradiction.
  - loop_round pend f q; simpl; intros Hin.
    + destruct (IH _ _ _ _ Hin) as [g [c [H1 H2]]]. exists g, c. auto.
    + destruct (IH _ _ _ _ Hin) as [g [c [H1 H2]]]. exists g, c. auto.
    + destruct Hin as [<-|Hin].
      * exists f, cls. repeat split; auto.
      * destruct (IH _ _ _ _ Hin) as [g [c [H1 H2]]]. exists g, c. auto.
    + contradiction.
Qed.


(** ** [poll] in terms of the loop *)

Lemma poll_dry_run files q :
  poll get_parser files false q = mkRun (Returned files) q [].
Proof. reflexivity. Qed.

Lemma poll_enqueue files q :
  poll get_parser files true q
  = match pending_urls_of (pending_tasks q) with
    | Raised e => mkRun (Raised e) (after_expiry q) (prologue q)
    | Returned urls =>
        match outcome (loop urls files 0 (after_expiry q)) with
        | Returned n =>
            mkRun (Returned files)
                  (queue (loop urls files 0 (after_expiry q)))
                  (prologue q ++ trace (loop urls files 0 (after_expiry q))
                     ++ [Logged INFO
                           (EnqueuedSummary n
                              (n + Z.of_nat (List.length urls)))])
        | Raised e =>
            mkRun (Raised e)
                  (queue (loop urls files 0 (after_expiry q)))
                  (prologue q ++ trace (loop urls files 0 (after_expiry q)))
        end
    end.
Proof.
  unfold poll, prologue, after_expiry, expired_keys, bind, expire_locks,
    pending, lift, log, emit, ret. simpl.
  destruct (truthy (map lock_key (filter (expired_lock 1800) (locks q))));
    simpl;
    destruct (pending_urls_of (pending_tasks q)) as [urls|e]; simpl;
    try reflexivity;
    destruct (outcome (enqueue_loop get_parser urls files 0 _)); simpl;
    rewrite ?app_nil_r; reflexivity.
Qed.

(** What a call with [enqueue] submits is what its loop submits. *)
Lemma poll_submissions files q urls :
  pending_urls_of (pending_tasks q) = Returned urls ->
  submissions (trace (poll get_parser files true q))
  = submissions (trace (loop urls files 0 (after_expiry q))).
Proof.
  intros Hp. rewrite poll_enqueue, Hp.
  destruct (outcome (loop urls files 0 (after_expiry q))); cbn [trace];
    rewrite ?submissions_app, submissions_prologue; simpl;
    rewrite ?app_nil_r; reflexivity.
Qed.

Lemma poll_no_submissions files q e :
  pending_urls_of (pending_tasks q) = Raised e ->
  submissions (trace (poll get_parser files true q)) = [].
Proof.
  intros Hp. rewrite poll_enqueue, Hp. cbn [trace].
  apply submissions_prologue.
Qed.

(** The queue a call with [enqueue] leaves: the locks that did not expire,
    and the pending tasks followed by the submissions. *)
Lemma poll_queue files q :
  locks (queue (poll get_parser files true q)) = locks (after_expiry q) /\
  pending_tasks (queue (poll get_parser files true q))
  = pending_tasks q ++ submissions (trace (poll get_parser files true q)).
Proof.
  destruct (pending_urls_of (pending_tasks q)) as [urls|e] eqn:Hp.
  - rewrite (poll_submissions files q urls Hp).
    destruct (loop_queue files urls 0 (after_expiry q)) as [H1 H2].
    rewrite pending_after_expiry in H2.
    rewrite poll_enqueue, Hp.
    destruct (outcome (loop urls files 0 (after_expiry q)));
      cbn [queue]; auto.
  - rewrite (poll_no_submissions files q e Hp), app_nil_r.
    rewrite poll_enqueue, Hp. cbn [queue]. auto.
Qed.

End Loop.

(** ** Joined keys *)

Lemma append_empty_r (s : string) : String.append s EmptyString = s.
Proof. induction s as [|c s IH]; simpl; [|rewrite IH]; reflexivity. Qed.

Lemma append_assoc (a b c : string) :
  String.append (String.append a b) c = String.append a (String.append b c).
Proof. induction a as [|x a IH]; simpl; [|rewrite IH]; reflexivity. Qed.

(** Every string of a joined sequence occurs in the result. *)
Lemma concat_occurs (sep k : string) (l : list string) :
  In k l -> occurs_in k (String.concat sep l).
Proof.
  induction l as [|h t IH]; intros Hin; [contradiction|].
  destruct Hin as [->|Hin].
  - destruct t as [|h' t'].
    + exists EmptyString, EmptyString. simpl. rewrite append_empty_r.
      reflexivity.
    + exists EmptyString, (String.append sep (String.concat sep (h' :: t'))).
      reflexivity.
  - destruct t as [|h' t']; [contradiction|].
    destruct (IH Hin) as [pre [post E]].
    exists (String.append h (String.append sep pre)), post.
    change (String.concat sep (h :: h' :: t'))
      with (String.append h (String.append sep (String.concat sep (h' :: t')))).
    rewrite E, !append_assoc. reflexivity.
Qed.

(** ** The claims about [poll] *)

Import Scenarios.

(** C1. Idempotent enqueue across cycles: when a call of [poll] with
    [enqueue] has submitted one job for a URL, and every task pending after
    that call is still pending when [poll] is called again (no job has
    started; the locks may be any), the second call submits no job for the
    URL, whatever it discovers: exactly one job is submitted for the URL
    across both calls. *)
Theorem poll_enqueue_idempotent
    (get_parser : string -> option ParserCls)
    (files1 files2 : list UpdatedFile) (q q2 : Huey) (u : string) :
  jobs_submitted u (trace (poll get_parser files1 true q)) = 1%nat ->
  (forall t, In t (pending_tasks (queue (poll get_parser files1 true q))) ->
             In t (pending_tasks q2)) ->
  jobs_submitted u (trace (poll get_parser files2 true q2)) = 0%nat /\
  jobs_submitted u (trace (poll get_parser files1 true q)
                      ++ trace (poll get_parser files2 true q2)) = 1%nat.
Proof.
  intros Hone Hstill.
  assert (jobs_submitted u (trace (poll get_parser files2 true q2)) = 0%nat)
    as Hzero.
  { assert (exists t, In t (pending_tasks q2) /\ job_for u t = true)
      as [t [Hin Hjob]].
    { unfold jobs_submitted in Hone.
      destruct (filter (job_for u)
                  (submissions (trace (poll get_parser files1 true q))))
        as [|t ts] eqn:E; [discriminate|].
      assert (In t (filter (job_for u)
                (submissions (trace (poll get_parser files1 true q)))))
        as Ht by (rewrite E; left; reflexivity).
      apply filter_In in Ht. destruct Ht as [Ht1 Ht2].
      exists t. split; [|exact Ht2]. apply Hstill.
      destruct (poll_queue get_parser files1 q) as [_ ->].
      apply in_or_app. right. exact Ht1. }
    destruct (pending_urls_of (pending_tasks q2)) as [urls|e] eqn:Hp.
    - unfold jobs_submitted.
      rewrite (poll_submissions get_parser files2 q2 urls Hp).
      apply (loop_skips get_parser files2 urls 0 (after_expiry q2) u).
      left. exact (pending_urls_of_In _ _ t u Hp Hin Hjob).
    - unfold jobs_submitted.
      rewrite (poll_no_submissions get_parser files2 q2 e Hp).
      reflexivity. }
  split; [exact Hzero|].
  rewrite jobs_submitted_app, Hone, Hzero. reflexivity.
Qed.

Lemma poll_enqueue_idempotent_witness :
  jobs_submitted (url observations_file)
    (trace (poll registry [observations_file] true idle_queue)) = 1%nat /\
  jobs_submitted (url observations_file)
    (trace (poll registry [observations_file; forecast_file] true
              (queue (poll registry [observations_file] true idle_queue))))
  = 0%nat /\
  jobs_submitted (url observations_file)
    (trace (poll registry [observations_file] true idle_queue)
       ++ trace (poll registry [observations_file; forecast_file] true
                   (queue (poll registry [observations_file] true
                             idle_queue)))) = 1%nat.
Proof.
  split; [vm_compute; reflexivity|].
  apply (poll_enqueue_idempotent registry [observations_file]
           [observations_file; forecast_file] idle_queue
           (queue (poll registry [observations_file] true idle_queue))
           (url observations_file)).
  - vm_compute. reflexivity.
  - intros t Ht. exact Ht.
Defined.




(** C4. Lock respect: a URL that the queue reports as locked when [poll]
    asks, that is after the stale locks are expired, gets no job in a call
    with [enqueue], whether it is pending or not and however the call
    ends. *)
Theorem poll_respects_locks
    (get_parser : string -> option ParserCls)
    (files : list UpdatedFile) (q : Huey) (u : string) :
  locked u (after_expiry q) = true ->
  jobs_submitted u (trace (poll get_parser files true q)) = 0%nat.
Proof.
  intros Hl. unfold jobs_submitted.
  destruct (pending_urls_of (pending_tasks q)) as [urls|e] eqn:Hp.
  - rewrite (poll_submissions get_parser files q urls Hp).
    apply (loop_skips get_parser files urls 0 (after_expiry q) u).
    right. exact Hl.
  - rewrite (poll_no_submissions get_parser files q e Hp). reflexivity.
Qed.

Lemma poll_respects_locks_witness :
  locked (url forecast_file) (after_expiry busy_queue) = true /\
  jobs_submitted (url forecast_file)
    (trace (poll registry [forecast_file; observations_file; forecast_file]
              true busy_queue)) = 0%nat.
Proof.
  split; [reflexivity|].
  apply (poll_respects_locks registry
           [forecast_file; observations_file; forecast_file] busy_queue
           (url forecast_file)).
  reflexivity.
Defined.

(** C8. Lock expiry comes first: a call of [poll] with [enqueue] starts
    with [expire_locks(1800)], which expires exactly the locks older than
    1800; when keys were expired the warning with the joined keys follows,
    in which every expired key occurs; only then the pending tasks are read,
    and the loop, with its submissions, runs after that. No lock older than
    1800 is left in the queue. *)
Theorem poll_expires_locks_first
    (get_parser : string -> option ParserCls)
    (files : list UpdatedFile) (q : Huey) :
  (exists rest,
     trace (poll get_parser files true q)
     = ExpireLocks 1800 (expired_keys q)
         :: (if truthy (expired_keys q)
             then [Logged WARNING
                     (RemovedExpiredLocks
                        (String.concat ", " (expired_keys q)))]
             else [])
         ++ Pending :: rest) /\
  (forall l, In l (locks q) -> 1800 < lock_age l ->
     In (lock_key l) (expired_keys q) /\
     In (Logged WARNING
           (RemovedExpiredLocks (String.concat ", " (expired_keys q))))
        (trace (poll get_parser files true q)) /\
     occurs_in (lock_key l) (String.concat ", " (expired_keys q))) /\
  (forall k, In k (expired_keys q) ->
     exists l, In l (locks q) /\ lock_key l = k /\ 1800 < lock_age l) /\
  locks (queue (poll get_parser files true q))
  = filter (fun l => lock_age l <=? 1800) (locks q).
Proof.
  assert (exists rest,
            trace (poll get_parser files true q) = prologue q ++ rest)
    as [rest Hrest].
  { rewrite poll_enqueue.
    destruct (pending_urls_of (pending_tasks q)) as [urls|e].
    - destruct (outcome (enqueue_loop get_parser urls files 0
                           (after_expiry q))); cbn [trace]; eexists;
        reflexivity.
    - cbn [trace]. exists []. rewrite app_nil_r. reflexivity. }
  assert (forall l, In l (locks q) -> 1800 < lock_age l ->
                    In (lock_key l) (expired_keys q)) as Hkeys.
  { intros l Hin Hage. unfold expired_keys. apply in_map.
    apply filter_In. split; [exact Hin|]. unfold expired_lock.
    apply Z.ltb_lt. exact Hage. }
  split; [|split; [|split]].
  - exists rest. rewrite Hrest. unfold prologue. simpl.
    rewrite <- app_assoc. reflexivity.
  - intros l Hin Hage. pose proof (Hkeys l Hin Hage) as Hk.
    split; [exact Hk|]. split.
    + rewrite Hrest. apply in_or_app. left. unfold prologue.
      destruct (expired_keys q) as [|k ks] eqn:E; [contradiction|].
      simpl. right. left. reflexivity.
    + apply concat_occurs. exact Hk.
  - intros k Hk. unfold expired_keys in Hk. apply in_map_iff in Hk.
    destruct Hk as [l [Hl Hin]]. apply filter_In in Hin.
    destruct Hin as [Hin Hage]. exists l. repeat split; auto.
    unfold expired_lock in Hage. apply Z.ltb_lt. exact Hage.
  - destruct (poll_queue get_parser files q) as [-> _].
    rewrite locks_after_expiry. apply filter_ext. intros l.
    unfold expired_lock. destruct (Z.ltb_spec 1800 (lock_age l));
      destruct (Z.leb_spec (lock_age l) 1800); simpl; auto; lia.
Qed.

(** A call with [enqueue] on a file without a parser does not return. *)
Lemma poll_enqueue_may_raise :
  outcome (poll registry [unknown_file; observations_file] true idle_queue)
  = Raised (UnknownFormat "BESCHREIBUNG.pdf") /\
  outcome (poll registry [unknown_file; observations_file] true idle_queue)
  <> Returned [unknown_file; observations_file].
Proof.
  split; [vm_compute; reflexivity|]. vm_compute. discriminate.
Qed.

(** C9, as the code has it. [poll] returns the discovered sequence as the
    poller produced it whenever no exception leaves it: always without
    [enqueue], and with [enqueue] when the pending process tasks all have
    their argument and every discovered file that is neither pending nor
    locked has a parser. Without [enqueue] it touches nothing: the queue is
    the one it started from and the trace is empty. *)
Theorem poll_returns_discovered
    (get_parser : string -> option ParserCls)
    (files : list UpdatedFile) (enqueue : bool) (q : Huey) :
  (enqueue = true ->
   exists pending_urls,
     pending_urls_of (pending_tasks q) = Returned pending_urls /\
     forall f, In f files -> eligible pending_urls (after_expiry q) f ->
               get_parser (basename (url f)) <> None) ->
  outcome (poll get_parser files enqueue q) = Returned files /\
  (enqueue = false ->
   queue (poll get_parser files enqueue q) = q /\
   trace (poll get_parser files enqueue q) = []).
Proof.
  intros H. destruct enqueue.
  - split; [|discriminate].
    destruct (H eq_refl) as [urls [Hp Hres]].
    destruct (loop_returns get_parser files urls 0 (after_expiry q) Hres)
      as [m Hm].
    rewrite poll_enqueue, Hp, Hm. reflexivity.
  - split; [reflexivity|]. intros _. split; reflexivity.
Qed.

Lemma poll_returns_discovered_witness :
  (outcome (poll registry [unknown_file; forecast_file] false busy_queue)
   = Returned [unknown_file; forecast_file] /\
   (false = false ->
    queue (poll registry [unknown_file; forecast_file] false busy_queue)
    = busy_queue /\
    trace (poll registry [unknown_file; forecast_file] false busy_queue)
    = [])) /\
  (outcome (poll registry [forecast_file; observations_file] true busy_queue)
   = Returned [forecast_file; observations_file] /\
   (true = false ->
    queue (poll registry [forecast_file; observations_file] true busy_queue)
    = busy_queue /\
    trace (poll registry [forecast_file; observations_file] true busy_queue)
    = [])).
Proof.
  split.
  - apply (poll_returns_discovered registry [unknown_file; forecast_file]
             false busy_queue).
    discriminate.
  - apply (poll_returns_discovered registry
             [forecast_file; observations_file] true busy_queue).
    intros _. exists []. split; [reflexivity|].
    intros f [<-|[<-|[]]] _; vm_compute; discriminate.
Defined.

(** C10. No deduplication within a cycle: the pending URLs are read once,
    before the loop. When a call with [enqueue] completes, a URL that was
    neither pending nor locked at the start has one job for every time it
    occurs in the discovered sequence, and the summary that is logged last
    counts every submission: it reports the number of submissions, and that
    number plus the number of pending URLs as the queue size. *)
Theorem poll_no_dedup_within_cycle
    (get_parser : string -> option ParserCls)
    (files fs : list UpdatedFile) (q : Huey)
    (pending_urls : list string) (u : string) :
  outcome (poll get_parser files true q) = Returned fs ->
  pending_urls_of (pending_tasks q) = Returned pending_urls ->
  str_in u pending_urls = false ->
  locked u q = false ->
  jobs_submitted u (trace (poll get_parser files true q))
  = discovered u files /\
  exists tr enqueued,
    trace (poll get_parser files true q)
    = tr ++ [Logged INFO
               (EnqueuedSummary enqueued
                  (enqueued + Z.of_nat (List.length pending_urls)))] /\
    enqueued
    = Z.of_nat (List.length
                  (submissions (trace (poll get_parser files true q)))).
Proof.
  intros Hret Hp Hu1 Hu2.
  apply unlocked_after_expiry in Hu2.
  unfold jobs_submitted.
  rewrite (poll_submissions get_parser files q pending_urls Hp).
  rewrite poll_enqueue, Hp in Hret |- *.
  destruct (outcome (enqueue_loop get_parser pending_urls files 0
                       (after_expiry q))) as [n|e] eqn:Hout;
    [|discriminate].
  destruct (loop_counts get_parser files pending_urls 0 (after_expiry q) n
              Hout) as [Hn Hjobs].
  split.
  - apply Hjobs; assumption.
  - cbn [trace]. eexists. exists n. split.
    + rewrite app_assoc. reflexivity.
    + rewrite Hn. lia.
Qed.

Lemma poll_no_dedup_within_cycle_witness :
  outcome (poll registry [observations_file; forecast_file; observations_file]
             true idle_queue)
  = Returned [observations_file; forecast_file; observations_file] /\
  pending_urls_of (pending_tasks idle_queue) = Returned [] /\
  str_in (url observations_file) [] = false /\
  locked (url observations_file) idle_queue = false /\
  jobs_submitted (url observations_file)
    (trace (poll registry
              [observations_file; forecast_file; observations_file]
              true idle_queue))
  = discovered (url observations_file)
      [observations_file; forecast_file; observations_file] /\
  exists tr enqueued,
    trace (poll registry
             [observations_file; forecast_file; observations_file]
             true idle_queue)
    = tr ++ [Logged INFO
               (EnqueuedSummary enqueued
                  (enqueued + Z.of_nat (List.length (@nil string))))] /\
    enqueued
    = Z.of_nat (List.length
                  (submissions
                     (trace (poll registry
                               [observations_file; forecast_file;
                                observations_file]
                               true idle_queue)))).
Proof.
  split; [vm_compute; reflexivity|].
  split; [reflexivity|].
  split; [reflexivity|].
  split; [reflexivity|].
  apply (poll_no_dedup_within_cycle registry
           [observations_file; forecast_file; observations_file]
           [observations_file; forecast_file; observations_file]
           idle_queue [] (url observations_file)).
  - vm_compute. reflexivity.
  - reflexivity.
  - reflexivity.
  - reflexivity.
Defined.

End SchedulerFacts.

(* ================================================================== *)
(** * Facts about the retention engine *)

Module RetentionFacts.

Import Retention.

(** ** Lists and aggregates *)

Lemma filter_filter {A : Type} (f g : A -> bool) (l : list A) :
  filter f (filter g l) = filter (fun x => g x && f x) l.
Proof.
  induction l as [|a l IH]; simpl; [reflexivity|].
  destruct (g a); simpl; [destruct (f a)|]; rewrite IH; reflexivity.
Qed.

Lemma filter_nothing {A : Type} (f : A -> bool) (l : list A) :
  (forall x, In x l -> f x = false) -> filter f l = [].
Proof.
  induction l as [|a l IH]; intros H; simpl; [reflexivity|].
  rewrite (H a (or_introl eq_refl)). apply IH.
  intros x Hx. apply H. right. exact Hx.
Qed.

Lemma filter_everything {A : Type} (f : A -> bool) (l : list A) :
  (forall x, In x l -> f x = true) -> filter f l = l.
Proof.
  induction l as [|a l IH]; intros H; simpl; [reflexivity|].
  rewrite (H a (or_introl eq_refl)). f_equal. apply IH.
  intros x Hx. apply H. right. exact Hx.
Qed.

Lemma sql_min_spec (ts : list Z) :
  ts <> [] ->
  exists m, sql_min ts = Some m /\ In m ts /\ forall t, In t ts -> m <= t.
Proof.
  induction ts as [|t ts IH]; intros Hne; [congruence|].
  destruct ts as [|t' ts'].
  - exists t. simpl. repeat split; auto. intros x [<-|[]]. lia.
  - destruct IH as [m [Hm [Hin Hle]]]; [discriminate|].
    change (sql_min (t :: t' :: ts'))
      with (match sql_min (t' :: ts') with
            | None => Some t
            | Some m => Some (Z.min t m)
            end).
    rewrite Hm. exists (Z.min t m). split; [reflexivity|]. split.
    + destruct (Z.min_spec t m) as [[_ ->]|[_ ->]];
        [left; reflexivity|right; exact Hin].
    + intros x [<-|Hx]; [lia|]. specialize (Hle x Hx). lia.
Qed.

Lemma sql_max_spec (ts : list Z) :
  ts <> [] ->
  exists m, sql_max ts = Some m /\ In m ts /\ forall t, In t ts -> t <= m.
Proof.
  induction ts as [|t ts IH]; intros Hne; [congruence|].
  destruct ts as [|t' ts'].
  - exists t. simpl. repeat split; auto. intros x [<-|[]]. lia.
  - destruct IH as [m [Hm [Hin Hle]]]; [discriminate|].
    change (sql_max (t :: t' :: ts'))
      with (match sql_max (t' :: ts') with
            | None => Some t
            | Some m => Some (Z.max t m)
            end).
    rewrite Hm. exists (Z.max t m). split; [reflexivity|]. split.
    + destruct (Z.max_spec t m) as [[_ ->]|[_ ->]];
        [right; exact Hin|left; reflexivity].
    + intros x [<-|Hx]; [lia|]. specialize (Hle x Hx). lia.
Qed.

(** ** The subquery [record_range] and the UPDATE *)

Lemma timestamps_of_rows_of (sid : Z) (rows : list Row) :
  timestamps_of sid rows = map timestamp (rows_of sid rows).
Proof. reflexivity. Qed.

Lemma rows_of_In (sid : Z) (rows : list Row) (x : Row) :
  In x (rows_of sid rows) <-> In x rows /\ source_id x = sid.
Proof.
  unfold rows_of. rewrite filter_In, Z.eqb_eq. reflexivity.
Qed.

Lemma rows_of_empty (sid : Z) (rows : list Row) :
  rows_of sid rows = [] <-> ~ In sid (map source_id rows).
Proof.
  split.
  - intros He Hin. apply in_map_iff in Hin. destruct Hin as [x [Hx Hin]].
    assert (In x (rows_of sid rows)) as H by (apply rows_of_In; auto).
    rewrite He in H. contradiction.
  - intros Hn. apply filter_nothing. intros x Hx.
    apply Z.eqb_neq. intros E. apply Hn. apply in_map_iff. exists x. auto.
Qed.

Lemma find_group (a b : Z -> option Z) (sid : Z) (keys : list Z) :
  find (fun g => range_source_id g =? sid)
       (map (fun k => mkRange k (a k) (b k)) keys)
  = if in_dec Z.eq_dec sid keys then Some (mkRange sid (a sid) (b sid))
    else None.
Proof.
  induction keys as [|k keys IH]; simpl; [reflexivity|].
  destruct (Z.eqb_spec k sid) as [E|Hne].
  - subst k. destruct (Z.eq_dec sid sid) as [C|C]; [reflexivity|congruence].
  - rewrite IH. destruct (Z.eq_dec k sid) as [C|C]; [congruence|].
    destruct (in_dec Z.eq_dec sid keys); reflexivity.
Qed.

Lemma find_record_range (sid : Z) (rows : list Row) :
  find (fun g => range_source_id g =? sid) (record_range rows)
  = match rows_of sid rows with
    | [] => None
    | _ :: _ =>
        Some (mkRange sid (sql_min (timestamps_of sid rows))
                          (sql_max (timestamps_of sid rows)))
    end.
Proof.
  unfold record_range.
  rewrite (find_group (fun k => sql_min (timestamps_of k rows))
                      (fun k => sql_max (timestamps_of k rows))).
  destruct (in_dec Z.eq_dec sid (nodup Z.eq_dec (map source_id rows)))
    as [Hin|Hn].
  - apply nodup_In in Hin.
    destruct (rows_of sid rows) eqn:E; [|reflexivity].
    apply rows_of_empty in E. contradiction.
  - rewrite nodup_In in Hn. apply rows_of_empty in Hn. rewrite Hn.
    reflexivity.
Qed.

Lemma update_source_unchanged (rows : list Row) (s : Source) :
  rows_of (id s) rows = [] -> update_source (record_range rows) s = s.
Proof.
  intros He. unfold update_source. rewrite find_record_range, He.
  reflexivity.
Qed.

Lemma update_source_changed (rows : list Row) (s : Source) :
  rows_of (id s) rows <> [] ->
  update_source (record_range rows) s
  = mkSource (id s) (wmo_station_id s) (dwd_station_id s)
             (observation_type s)
             (sql_min (map timestamp (rows_of (id s) rows)))
             (sql_max (map timestamp (rows_of (id s) rows))).
Proof.
  intros Hne. unfold update_source. rewrite find_record_range.
  destruct (rows_of (id s) rows) eqn:E; [congruence|]. simpl.
  rewrite !timestamps_of_rows_of, E. reflexivity.
Qed.

Lemma update_source_identity (ranges : list Range) (s : Source) :
  same_identity s (update_source ranges s).
Proof.
  unfold update_source, same_identity.
  destruct (find _ ranges); simpl; auto.
Qed.

(** ** The statements of [clean], one at a time *)

Lemma set_table_same (t : TableName) (d : Database) :
  set_table t (table_rows t d) d = d.
Proof. destruct t, d; reflexivity. Qed.

Lemma set_table_twice (t : TableName) (rows rows' : list Row)
    (d : Database) :
  set_table t rows (set_table t rows' d) = set_table t rows d.
Proof. destruct t; reflexivity. Qed.

Lemma table_rows_set_table (t : TableName) (rows : list Row)
    (d : Database) :
  table_rows t (set_table t rows d) = rows.
Proof. destruct t; reflexivity. Qed.

Lemma delete_where_In {A : Type} (cond : A -> bool) (rows : list A)
    (x : A) :
  In x (delete_where cond rows) <-> In x rows /\ cond x = false.
Proof.
  unfold delete_where. rewrite filter_In, negb_true_iff. reflexivity.
Qed.

Lemma delete_where_nothing {A : Type} (cond : A -> bool) (rows : list A) :
  (forall x, In x rows -> cond x = false) ->
  delete_where cond rows = rows /\ rowcount_where cond rows = 0%nat.
Proof.
  intros H. unfold delete_where, rowcount_where. split.
  - apply filter_everything. intros x Hx. rewrite (H x Hx). reflexivity.
  - rewrite (filter_nothing cond rows H). reflexivity.
Qed.

(** Pass A, as one filter over [weather]. *)
Lemma fold_delete_obsolete (rows : list (Z * Z)) : forall s,
  db (fold_left delete_obsolete rows s)
  = set_table Weather
      (filter (fun x => forallb (fun row => negb (obsolete row x)) rows)
              (weather (db s)))
      (db s).
Proof.
  induction rows as [|row rows IH]; intros s.
  - simpl fold_left. simpl forallb. rewrite filter_true.
    symmetry. apply (set_table_same Weather).
  - simpl fold_left. rewrite IH. unfold delete_obsolete. cbn [db].
    rewrite set_table_twice.
    change (weather (set_table Weather ?r ?d)) with r.
    unfold delete_where. rewrite filter_filter. reflexivity.
Qed.

Lemma pass_a_weather (s : Session) (x : Row) :
  In x (weather (db (pass_a s))) <->
  In x (weather (db s)) /\
  forall row, In row (obsolete_recent (sources (db s))) ->
              obsolete row x = false.
Proof.
  unfold pass_a. rewrite fold_delete_obsolete.
  change (weather (set_table Weather ?r ?d)) with r.
  rewrite filter_In, forallb_forall. split; intros [H1 H2]; split; auto.
  - intros row Hrow. apply negb_true_iff. apply H2. exact Hrow.
  - intros row Hrow. apply negb_true_iff. apply H2. exact Hrow.
Qed.

Lemma pass_a_frame (s : Session) :
  sources (db (pass_a s)) = sources (db s) /\
  synop (db (pass_a s)) = synop (db s) /\
  parsed_files (db (pass_a s)) = parsed_files (db s).
Proof.
  unfold pass_a. rewrite fold_delete_obsolete. auto.
Qed.

(** The rows of the SELECT of Pass A. *)
Lemma obsolete_recent_In (ss : list Source) (sid threshold : Z) :
  In (sid, threshold) (obsolete_recent ss) <->
  exists r h, In r ss /\ In h ss /\ superseded r h = true /\
              last_record h = Some threshold /\ id r = sid.
Proof.
  unfold obsolete_recent. rewrite in_flat_map. split.
  - intros [r [Hr Hin]]. apply in_flat_map in Hin.
    destruct Hin as [h [Hh Hin]]. exists r, h.
    destruct (superseded r h) eqn:E; [|contradiction].
    destruct (last_record h) as [t|]; [|contradiction].
    destruct Hin as [Hin|[]]. injection Hin as <- <-. auto.
  - intros [r [h [Hr [Hh [Hs [Hl <-]]]]]]. exists r. split; [exact Hr|].
    apply in_flat_map. exists h. split; [exact Hh|].
    rewrite Hs, Hl. left. reflexivity.
Qed.

Lemma superseded_iff (r h : Source) :
  superseded r h = true <->
  wmo_station_id r = wmo_station_id h /\
  dwd_station_id r = dwd_station_id h /\
  observation_type r = "recent" /\
  observation_type h = "historical" /\
  exists t0 t1, first_record r = Some t0 /\ last_record h = Some t1 /\
                t0 < t1.
Proof.
  unfold superseded. rewrite !andb_true_iff, !String.eqb_eq.
  unfold sql_lt. split.
  - intros [[[[H1 H2] H3] H4] H5].
    destruct (first_record r) as [t0|]; [|discriminate].
    destruct (last_record h) as [t1|]; [|discriminate].
    apply Z.ltb_lt in H5. repeat split; auto. exists t0, t1. auto.
  - intros [H1 [H2 [H3 [H4 [t0 [t1 [-> [-> Hlt]]]]]]]].
    repeat split; auto. apply Z.ltb_lt. exact Hlt.
Qed.

Lemma ids_of_type_In (obs : string) (ss : list Source) (sid : Z) :
  In sid (ids_of_type obs ss) <->
  exists s, In s ss /\ observation_type s = obs /\ id s = sid.
Proof.
  unfold ids_of_type. rewrite in_map_iff. split.
  - intros [s [Hid Hin]]. apply filter_In in Hin. destruct Hin as [Hin Ho].
    apply String.eqb_eq in Ho. exists s. auto.
  - intros [s [Hin [Ho Hid]]]. exists s. split; [exact Hid|].
    apply filter_In. split; [exact Hin|]. apply String.eqb_eq. exact Ho.
Qed.

(** The UPDATE does not change which ids have which observation type. *)
Lemma ids_of_type_update (obs : string) (ranges : list Range)
    (ss : list Source) :
  ids_of_type obs (map (update_source ranges) ss) = ids_of_type obs ss.
Proof.
  unfold ids_of_type. induction ss as [|s ss IH]; simpl; [reflexivity|].
  destruct (update_source_identity ranges s) as [Hid [_ [_ Hobs]]].
  rewrite Hobs. destruct (String.eqb (observation_type s) obs); simpl;
    rewrite IH; [rewrite Hid|]; reflexivity.
Qed.

Lemma outdated_false (ids : list Z) (now interval : Z) (x : Row) :
  outdated ids now interval x = false <->
  ~ In (source_id x) ids \/ now - interval <= timestamp x.
Proof.
  unfold outdated. rewrite andb_false_iff, Z.ltb_ge. split.
  - intros [H|H]; [left|right; exact H]. intros Hin.
    assert (existsb (Z.eqb (source_id x)) ids = true) as C.
    { apply existsb_exists. exists (source_id x). split; [exact Hin|].
      apply Z.eqb_refl. }
    congruence.
  - intros [H|H]; [left|right; exact H].
    destruct (existsb (Z.eqb (source_id x)) ids) eqn:E; [|reflexivity].
    apply existsb_exists in E. destruct E as [k [Hk Heq]].
    apply Z.eqb_eq in Heq. subst k. contradiction.
Qed.

(** ** [clean] as a whole *)

Lemma clean_weather (now : Z) (d : Database) (x : Row) :
  In x (weather (db (clean now d))) <->
  In x (weather d) /\
  (forall row, In row (obsolete_recent (sources d)) ->
               obsolete row x = false) /\
  outdated (ids_of_type "forecast" (sources d)) now (hours 3) x = false /\
  outdated (ids_of_type "current" (sources d)) now (hours 48) x = false.
Proof.
  unfold clean, pass_c, pass_b, expire_table, update_bounds,
    delete_outdated, delete_parsed.
  cbn [fold_left expiry_intervals parsed_files_expiry_intervals fst snd db
       rowcounts set_table set_sources set_parsed_files table_rows sources
       weather synop parsed_files].
  destruct (pass_a_frame (mkSession d [])) as [-> _].
  rewrite !delete_where_In, pass_a_weather. cbn [db]. tauto.
Qed.

Lemma clean_synop (now : Z) (d : Database) (x : Row) :
  In x (synop (db (clean now d))) <->
  In x (synop d) /\
  outdated (ids_of_type "synop" (sources d)) now (hours 30) x = false.
Proof.
  unfold clean, pass_c, pass_b, expire_table, update_bounds,
    delete_outdated, delete_parsed.
  cbn [fold_left expiry_intervals parsed_files_expiry_intervals fst snd db
       rowcounts set_table set_sources set_parsed_files table_rows sources
       weather synop parsed_files].
  destruct (pass_a_frame (mkSession d [])) as [-> [-> _]].
  rewrite delete_where_In, ids_of_type_update. cbn [db]. tauto.
Qed.

Lemma clean_parsed_files (now : Z) (d : Database) (f : ParsedFile) :
  In f (parsed_files (db (clean now d))) <->
  In f (parsed_files d) /\
  stale_file now ("%/Z__C_EDZW_%", weeks 1) f = false.
Proof.
  unfold clean, pass_c, pass_b, expire_table, update_bounds,
    delete_outdated, delete_parsed.
  cbn [fold_left expiry_intervals parsed_files_expiry_intervals fst snd db
       rowcounts set_table set_sources set_parsed_files table_rows sources
       weather synop parsed_files].
  destruct (pass_a_frame (mkSession d [])) as [_ [_ ->]].
  rewrite delete_where_In. cbn [db]. tauto.
Qed.

Lemma clean_sources (now : Z) (d : Database) :
  sources (db (clean now d))
  = map (update_source (record_range (synop (db (clean now d)))))
        (map (update_source (record_range (weather (db (clean now d)))))
             (sources d)).
Proof.
  unfold clean, pass_c, pass_b, expire_table, update_bounds,
    delete_outdated, delete_parsed.
  cbn [fold_left expiry_intervals parsed_files_expiry_intervals fst snd db
       rowcounts set_table set_sources set_parsed_files table_rows sources
       weather synop parsed_files].
  destruct (pass_a_frame (mkSession d [])) as [-> _]. reflexivity.
Qed.

(** ** Keys *)

Lemma primary_key_inj (ss : list Source) (s s' : Source) :
  primary_key ss -> In s ss -> In s' ss -> id s = id s' -> s = s'.
Proof.
  unfold primary_key. induction ss as [|a ss IH]; intros Hnd Hs Hs' Hid.
  - contradiction.
  - simpl in Hnd. inversion Hnd as [|? ? Hnotin Hnd']; subst.
    destruct Hs as [->|Hs]; destruct Hs' as [->|Hs'].
    + reflexivity.
    + exfalso. apply Hnotin. rewrite Hid. apply in_map. exact Hs'.
    + exfalso. apply Hnotin. rewrite <- Hid. apply in_map. exact Hs.
    + apply IH; assumption.
Qed.

Lemma Forall2_map_self {A : Type} (R : A -> A -> Prop) (f : A -> A)
    (l : list A) :
  (forall x, In x l -> R x (f x)) -> Forall2 R l (map f l).
Proof.
  induction l as [|a l IH]; intros H; simpl; constructor.
  - apply H. left. reflexivity.
  - apply IH. intros x Hx. apply H. right. exact Hx.
Qed.

(** ** One round of Pass B *)

Lemma fold_delete_outdated_sources (now : Z) (t : TableName)
    (entries : list (string * Z)) : forall s,
  sources (db (fold_left (delete_outdated now t) entries s))
  = sources (db s).
Proof.
  induction entries as [|e entries IH]; intros s; simpl; [reflexivity|].
  rewrite IH. unfold delete_outdated. cbn [db]. destruct t; reflexivity.
Qed.

Lemma expire_table_sources (now : Z) (s : Session)
    (entry : TableName * list (string * Z)) :
  sources (db (expire_table now s entry))
  = map (update_source
           (record_range (table_rows (fst entry)
                            (db (expire_table now s entry)))))
        (sources (db s)).
Proof.
  unfold expire_table, update_bounds. cbn [db set_sources sources].
  rewrite fold_delete_outdated_sources.
  destruct (fst entry); reflexivity.
Qed.

Lemma recomputed_bounds_update (rows : list Row) (s : Source) :
  rows_of (id s) rows <> [] ->
  recomputed_bounds (rows_of (id s) rows)
    (update_source (record_range rows) s).
Proof.
  intros Hne. rewrite (update_source_changed rows s Hne).
  assert (map timestamp (rows_of (id s) rows) <> []) as Hne'.
  { destruct (rows_of (id s) rows); [congruence|discriminate]. }
  destruct (sql_min_spec _ Hne') as [lo [Hlo [Hlo_in Hlo_le]]].
  destruct (sql_max_spec _ Hne') as [hi [Hhi [Hhi_in Hhi_ge]]].
  exists lo, hi. cbn [first_record last_record].
  repeat split; auto.
  - apply Hlo_le. apply in_map. assumption.
  - apply Hhi_ge. apply in_map. assumption.
Qed.

(** ** The claims about [clean] *)

Import Scenarios.

(** C2. Overlap pruning: in a catalogue keyed by [id] with one row per
    station and observation type, take a recent and a historical source of
    the same station, the first record of the recent one earlier than the
    last record of the historical one. Every weather row of the recent
    source that is earlier than that last record is gone after Pass A, and
    after [clean]; every weather row of the recent source at or after that
    last record is still there after Pass A, and after [clean]. *)
Theorem overlap_pruning (now : Z) (d : Database) (r h : Source)
    (t0 t1 : Z) (x : Row) :
  primary_key (sources d) ->
  one_row_per_station_and_type (sources d) ->
  In r (sources d) -> In h (sources d) ->
  wmo_station_id r = wmo_station_id h ->
  dwd_station_id r = dwd_station_id h ->
  observation_type r = "recent" ->
  observation_type h = "historical" ->
  first_record r = Some t0 -> last_record h = Some t1 -> t0 < t1 ->
  In x (weather d) -> source_id x = id r ->
  (timestamp x < t1 ->
   ~ In x (weather (db (pass_a (mkSession d [])))) /\
   ~ In x (weather (db (clean now d)))) /\
  (t1 <= timestamp x ->
   In x (weather (db (pass_a (mkSession d [])))) /\
   In x (weather (db (clean now d)))).
Proof.
  intros Hkey Hone Hr Hh Hwmo Hdwd Hrec Hhist Hfirst Hlast Hlt Hx Hsid.
  assert (In (id r, t1) (obsolete_recent (sources d))) as Hpair.
  { apply obsolete_recent_In. exists r, h. repeat split; auto.
    apply superseded_iff. repeat split; auto. exists t0, t1. auto. }
  assert (forall row, In row (obsolete_recent (sources d)) ->
                      fst row = id r -> snd row = t1) as Honly.
  { intros [sid thr] Hrow Hfst. simpl in Hfst. subst sid. simpl.
    apply obsolete_recent_In in Hrow.
    destruct Hrow as [r' [h' [Hr' [Hh' [Hs [Hl Hid]]]]]].
    assert (r' = r) by (apply (primary_key_inj (sources d)); auto).
    subst r'. apply superseded_iff in Hs.
    destruct Hs as [Hw' [Hd' [_ [Hhist' _]]]].
    assert (h' = h) by (apply Hone; auto; congruence).
    subst h'. congruence. }
  split.
  - intros Hearly.
    assert (obsolete (id r, t1) x = true) as Hobs.
    { unfold obsolete. simpl. apply andb_true_iff. split.
      - apply Z.eqb_eq. exact Hsid.
      - apply Z.ltb_lt. exact Hearly. }
    split.
    + intros Hin. apply pass_a_weather in Hin. destruct Hin as [_ Hno].
      specialize (Hno _ Hpair). congruence.
    + intros Hin. apply clean_weather in Hin. destruct Hin as [_ [Hno _]].
      specialize (Hno _ Hpair). congruence.
  - intros Hlate.
    assert (forall row, In row (obsolete_recent (sources d)) ->
                        obsolete row x = false) as Hkeep.
    { intros row Hrow. unfold obsolete. apply andb_false_iff.
      destruct (Z.eqb_spec (source_id x) (fst row)) as [E|E];
        [right|left; reflexivity].
      rewrite (Honly row Hrow) by congruence. apply Z.ltb_ge. exact Hlate. }
    assert (forall obs, obs <> "recent" ->
                        ~ In (source_id x) (ids_of_type obs (sources d)))
      as Hother.
    { intros obs Hobs Hin. apply ids_of_type_In in Hin.
      destruct Hin as [s [Hs [Ho Hid]]].
      assert (s = r) by (apply (primary_key_inj (sources d)); auto;
                         congruence).
      subst s. congruence. }
    split.
    + apply pass_a_weather. split; assumption.
    + apply clean_weather. split; [exact Hx|]. split; [exact Hkeep|].
      split; apply outdated_false; left; apply Hother; discriminate.
Qed.

Lemma overlap_pruning_witness :
  (~ In (mkRow 1 (january 2) [12])
        (weather (db (pass_a (mkSession station_db [])))) /\
   ~ In (mkRow 1 (january 2) [12])
        (weather (db (clean noon station_db)))) /\
  (In (mkRow 1 (january 15) [9])
      (weather (db (pass_a (mkSession station_db [])))) /\
   In (mkRow 1 (january 15) [9])
      (weather (db (clean noon station_db)))).
Proof.
  assert (forall x, In x (weather station_db) -> source_id x = id source_a ->
            (timestamp x < january 10 ->
             ~ In x (weather (db (pass_a (mkSession station_db [])))) /\
             ~ In x (weather (db (clean noon station_db)))) /\
            (january 10 <= timestamp x ->
             In x (weather (db (pass_a (mkSession station_db [])))) /\
             In x (weather (db (clean noon station_db))))) as K.
  { intros x Hx Hsid.
    apply (overlap_pruning noon station_db source_a source_b
             (january 1) (january 10) x).
    - repeat constructor; simpl; intuition discriminate.
    - intros s s' [<-|[<-|[]]] [<-|[<-|[]]]; simpl; intros; auto;
        discriminate.
    - left. reflexivity.
    - right. left. reflexivity.
    - reflexivity.
    - reflexivity.
    - reflexivity.
    - reflexivity.
    - reflexivity.
    - reflexivity.
    - reflexivity.
    - exact Hx.
    - exact Hsid. }
  split.
  - destruct (K (mkRow 1 (january 2) [12])) as [Hgone _].
    + left. reflexivity.
    + reflexivity.
    + apply Hgone. reflexivity.
  - destruct (K (mkRow 1 (january 15) [9])) as [_ Hstays].
    + right. left. reflexivity.
    + reflexivity.
    + apply Hstays. discriminate.
Defined.



(** C7. Stale bounds and the frame of [clean]. A round of Pass B leaves a
    source without a surviving row in the round's table as it was, and
    [clean] leaves a source without a surviving row in [weather] and in
    [synop] as it was: its bounds are neither recomputed nor set to NULL.
    [clean] deletes and adds no source: the catalogue keeps its rows in
    their order, each with its id, station ids and observation type. *)
Theorem stale_bounds_kept :
  (forall (now : Z) (s : Session) (entry : TableName * list (string * Z)),
     Forall2
       (fun old new =>
          same_identity old new /\
          (rows_of (id old)
             (table_rows (fst entry) (db (expire_table now s entry))) = [] ->
           new = old))
       (sources (db s))
       (sources (db (expire_table now s entry)))) /\
  (forall (now : Z) (d : Database),
     Forall2
       (fun old new =>
          same_identity old new /\
          (rows_of (id old) (weather (db (clean now d))) = [] ->
           rows_of (id old) (synop (db (clean now d))) = [] ->
           new = old))
       (sources d)
       (sources (db (clean now d)))).
Proof.
  split.
  - intros now s entry. rewrite expire_table_sources.
    apply Forall2_map_self. intros old _. split.
    + apply update_source_identity.
    + apply update_source_unchanged.
  - intros now d. rewrite clean_sources, map_map.
    apply Forall2_map_self. intros old _.
    set (w := weather (db (clean now d))).
    set (y := synop (db (clean now d))).
    destruct (update_source_identity (record_range w) old)
      as [Hid0 [Hw0 [Hd0 Ho0]]].
    destruct (update_source_identity (record_range y)
                (update_source (record_range w) old))
      as [Hid1 [Hw1 [Hd1 Ho1]]].
    split.
    + unfold same_identity. repeat split; congruence.
    + intros Hw Hy. rewrite (update_source_unchanged w old Hw).
      apply update_source_unchanged. exact Hy.
Qed.

Lemma stale_bounds_kept_witness :
  Forall2
    (fun old new =>
       same_identity old new /\
       (rows_of (id old) (weather (db (clean noon synop_db))) = [] ->
        rows_of (id old) (synop (db (clean noon synop_db))) = [] ->
        new = old))
    (sources synop_db)
    (sources (db (clean noon synop_db))) /\
  nth_error (sources (db (clean noon synop_db))) 1
  = nth_error (sources synop_db) 1.
Proof.
  split.
  - apply (proj2 stale_bounds_kept noon synop_db).
  - reflexivity.
Defined.

(** ** Running [clean] again *)

Lemma delete_obsolete_quiet (s : Session) (row : Z * Z) :
  (forall x, In x (weather (db s)) -> obsolete row x = false) ->
  delete_obsolete s row = mkSession (db s) (rowcounts s ++ [0%nat]).
Proof.
  intros H. unfold delete_obsolete.
  destruct (delete_where_nothing (obsolete row) (weather (db s)) H)
    as [-> ->].
  rewrite (set_table_same Weather). reflexivity.
Qed.

Lemma fold_delete_obsolete_quiet (rows : list (Z * Z)) : forall s,
  (forall row x, In row rows -> In x (weather (db s)) ->
                 obsolete row x = false) ->
  db (fold_left delete_obsolete rows s) = db s /\
  (no_deletions s -> no_deletions (fold_left delete_obsolete rows s)).
Proof.
  induction rows as [|row rows IH]; intros s H.
  - simpl. auto.
  - simpl fold_left. rewrite delete_obsolete_quiet.
    + destruct (IH (mkSession (db s) (rowcounts s ++ [0%nat]))) as [H1 H2].
      * intros r x Hr Hx. apply H; [right; exact Hr|exact Hx].
      * split; [exact H1|]. intros Hnd. apply H2.
        unfold no_deletions in *. cbn [rowcounts]. apply Forall_app.
        split; [exact Hnd|]. constructor; [reflexivity|constructor].
    + intros x Hx. apply H; [left; reflexivity|exact Hx].
Qed.

Lemma pass_a_quiet (s : Session) :
  (forall row x, In row (obsolete_recent (sources (db s))) ->
                 In x (weather (db s)) -> obsolete row x = false) ->
  db (pass_a s) = db s /\
  (no_deletions s -> no_deletions (pass_a s)).
Proof. apply fold_delete_obsolete_quiet. Qed.

(** A run in which no statement finds a row to delete. *)
Lemma clean_quiet (now : Z) (d : Database) :
  (forall row x, In row (obsolete_recent (sources d)) -> In x (weather d) ->
                 obsolete row x = false) ->
  (forall x, In x (weather d) ->
     outdated (ids_of_type "forecast" (sources d)) now (hours 3) x = false) ->
  (forall x, In x (weather d) ->
     outdated (ids_of_type "current" (sources d)) now (hours 48) x = false) ->
  (forall x, In x (synop d) ->
     outdated (ids_of_type "synop" (sources d)) now (hours 30) x = false) ->
  (forall f, In f (parsed_files d) ->
     stale_file now ("%/Z__C_EDZW_%", weeks 1) f = false) ->
  no_deletions (clean now d) /\
  weather (db (clean now d)) = weather d /\
  synop (db (clean now d)) = synop d /\
  parsed_files (db (clean now d)) = parsed_files d.
Proof.
  intros HA HB1 HB2 HB3 HC.
  destruct (pass_a_quiet (mkSession d []) HA) as [Hdb Hnd].
  cbn [db] in Hdb. specialize (Hnd (Forall_nil _)).
  unfold clean, pass_c, pass_b, expire_table, update_bounds,
    delete_outdated, delete_parsed.
  cbn [fold_left expiry_intervals parsed_files_expiry_intervals fst snd db
       rowcounts set_table set_sources set_parsed_files table_rows sources
       weather synop parsed_files].
  rewrite !Hdb, !ids_of_type_update.
  destruct (delete_where_nothing _ _ HB1) as [E1 C1]. rewrite !E1, !C1.
  destruct (delete_where_nothing _ _ HB2) as [E2 C2]. rewrite !E2, !C2.
  destruct (delete_where_nothing _ _ HB3) as [E3 C3]. rewrite !E3, !C3.
  destruct (delete_where_nothing _ _ HC) as [E4 C4]. rewrite !E4, !C4.
  repeat split; try reflexivity.
  unfold no_deletions in *. repeat (apply Forall_app; split);
    try exact Hnd; constructor; auto.
Qed.

Lemma outdated_earlier (ids : list Z) (now now' interval : Z) (x : Row) :
  now' <= now ->
  outdated ids now interval x = false ->
  outdated ids now' interval x = false.
Proof.
  intros Hle H. apply outdated_false. apply outdated_false in H.
  destruct H as [H|H]; [left; exact H|right; lia].
Qed.

Lemma stale_file_earlier (now now' : Z) (entry : string * Z)
    (f : ParsedFile) :
  now' <= now ->
  stale_file now entry f = false ->
  stale_file now' entry f = false.
Proof.
  unfold stale_file. rewrite !andb_false_iff, !Z.ltb_ge.
  intros Hle [H|H]; [left; exact H|right; lia].
Qed.

(** Where the last record of a source comes from after the UPDATE. *)
Lemma update_source_last (rows : list Row) (s : Source) (t : Z) :
  last_record (update_source (record_range rows) s) = Some t ->
  last_record s = Some t \/
  exists y, In y rows /\ source_id y = id s /\ timestamp y = t.
Proof.
  intros H. destruct (rows_of (id s) rows) eqn:E.
  - left. rewrite (update_source_unchanged rows s E) in H. exact H.
  - right. rewrite update_source_changed in H by congruence.
    cbn [last_record] in H.
    assert (map timestamp (rows_of (id s) rows) <> []) as Hne
      by (rewrite E; discriminate).
    destruct (sql_max_spec _ Hne) as [m [Hm [Hin _]]].
    rewrite Hm in H. injection H as <-.
    apply in_map_iff in Hin. destruct Hin as [y [Hy Hin]].
    apply rows_of_In in Hin. exists y. tauto.
Qed.

(** After a run on a database whose bounds enclose its rows, Pass A finds
    nothing left to delete. *)
Lemma clean_settles_overlap (now : Z) (d : Database) :
  bounds_enclose d ->
  forall row x,
    In row (obsolete_recent (sources (db (clean now d)))) ->
    In x (weather (db (clean now d))) ->
    obsolete row x = false.
Proof.
  intros Henc [sid thr] x Hrow Hx.
  destruct (obsolete (sid, thr) x) eqn:Hobs; [exfalso|reflexivity].
  unfold obsolete in Hobs. simpl in Hobs.
  apply andb_true_iff in Hobs. destruct Hobs as [Hsid Hts].
  apply Z.eqb_eq in Hsid. apply Z.ltb_lt in Hts.
  apply obsolete_recent_In in Hrow.
  destruct Hrow as [r3 [h3 [Hr3 [Hh3 [Hs [Hl Hid]]]]]].
  rewrite clean_sources in Hr3, Hh3.
  apply in_map_iff in Hr3. destruct Hr3 as [r1 [Er3 Hr1]].
  apply in_map_iff in Hr1. destruct Hr1 as [r0 [Er1 Hr0]].
  apply in_map_iff in Hh3. destruct Hh3 as [h1 [Eh3 Hh1]].
  apply in_map_iff in Hh1. destruct Hh1 as [h0 [Eh1 Hh0]].
  pose proof (proj1 (clean_weather now d x) Hx) as [Hx0 [Hkeep _]].
  set (w := weather (db (clean now d))) in *.
  set (y := synop (db (clean now d))) in *.
  (* the identifying columns of the two sources before the run *)
  destruct (update_source_identity (record_range w) r0)
    as [Ir0 [Wr0 [Dr0 Or0]]].
  destruct (update_source_identity (record_range w) h0)
    as [Ih0 [Wh0 [Dh0 Oh0]]].
  rewrite Er1 in Ir0, Wr0, Dr0, Or0. rewrite Eh1 in Ih0, Wh0, Dh0, Oh0.
  destruct (update_source_identity (record_range y) r1)
    as [Ir1 [Wr1 [Dr1 Or1]]].
  destruct (update_source_identity (record_range y) h1)
    as [Ih1 [Wh1 [Dh1 Oh1]]].
  rewrite Er3 in Ir1, Wr1, Dr1, Or1. rewrite Eh3 in Ih1, Wh1, Dh1, Oh1.
  apply superseded_iff in Hs. destruct Hs as [Hw [Hd [Hrec [Hhist _]]]].
  (* the row lies within the old bounds of the recent source *)
  assert (exists lo hi, first_record r0 = Some lo /\
            last_record r0 = Some hi /\ lo <= timestamp x <= hi)
    as [lo [hi [Hlo [_ Hbx]]]].
  { apply Henc; [exact Hr0|left; exact Hx0|congruence]. }
  (* the new threshold is not beyond the old last record *)
  assert (exists hi0, last_record h0 = Some hi0 /\ thr <= hi0)
    as [hi0 [Hhi0 Hthr]].
  { assert (forall z, In z w \/ In z y -> source_id z = id h0 ->
              timestamp z = thr ->
              exists hi0, last_record h0 = Some hi0 /\ thr <= hi0) as Hfrom_row.
    { intros z Hz Hzid Hzt.
      assert (In z (weather d) \/ In z (synop d)) as Hz0.
      { destruct Hz as [Hz|Hz].
        - left. apply (clean_weather now d z). exact Hz.
        - right. apply (clean_synop now d z). exact Hz. }
      destruct (Henc h0 z Hh0 Hz0 Hzid) as [a [b [_ [Hb Hab]]]].
      exists b. split; [exact Hb|lia]. }
    assert (last_record h1 = Some thr \/
            exists z, In z y /\ source_id z = id h1 /\ timestamp z = thr)
      as Hfrom by (apply update_source_last; rewrite Eh3; exact Hl).
    destruct Hfrom as [Hfrom|[z [Hz [Hzid Hzt]]]].
    - assert (last_record h0 = Some thr \/
              exists z, In z w /\ source_id z = id h0 /\ timestamp z = thr)
        as Hfrom0 by (apply update_source_last; rewrite Eh1; exact Hfrom).
      destruct Hfrom0 as [Hfrom0|[z [Hz [Hzid Hzt]]]].
      + exists thr. split; [exact Hfrom0|lia].
      + apply (Hfrom_row z); auto.
    - apply (Hfrom_row z); auto. congruence. }
  (* so the first run already deleted the row *)
  assert (In (id r0, hi0) (obsolete_recent (sources d))) as Hpair.
  { apply obsolete_recent_In. exists r0, h0. repeat split; auto.
    apply superseded_iff. repeat split; try congruence.
    exists lo, hi0. repeat split; auto. lia. }
  specialize (Hkeep _ Hpair). unfold obsolete in Hkeep. simpl in Hkeep.
  apply andb_false_iff in Hkeep. destruct Hkeep as [Hk|Hk].
  - apply Z.eqb_neq in Hk. congruence.
  - apply Z.ltb_ge in Hk. lia.
Qed.

(** The bounds that a run leaves give the same ids per observation type. *)
Lemma clean_ids_of_type (now : Z) (d : Database) (obs : string) :
  ids_of_type obs (sources (db (clean now d))) = ids_of_type obs (sources d).
Proof.
  rewrite clean_sources, !ids_of_type_update. reflexivity.
Qed.


(** With a first record later than the rows, the second of two runs at the
    same time deletes a row: the first run recomputes the bound, and the new
    bound makes Pass A select the source. *)
Lemma clean_rerun_deletes_when_bounds_stale :
  no_deletions (clean noon stale_db) /\
  ~ no_deletions (clean noon (db (clean noon stale_db))).
Proof.
  split.
  - vm_compute. repeat constructor.
  - intros H. vm_compute in H. apply Forall_inv in H. discriminate H.
Qed.



End RetentionFacts.

(* ================================================================== *)
(** * More about the scheduler *)

Module SchedulerMore.

Import Scheduler Views SchedulerFacts.

(** ** Pending URLs *)

Lemma pending_urls_of_app (ts ts' : list Task) (a b : list string) :
  pending_urls_of ts = Returned a ->
  pending_urls_of ts' = Returned b ->
  pending_urls_of (ts ++ ts') = Returned (a ++ b).
Proof.
  revert a. induction ts as [|t ts IH]; intros a Ha Hb.
  - simpl in Ha. injection Ha as <-. exact Hb.
  - simpl in *. destruct (String.eqb (name t) "process").
    + destruct (args t) as [|x rest]; [discriminate|].
      destruct (pending_urls_of ts) as [l|]; [|discriminate].
      injection Ha as <-. rewrite (IH l eq_refl Hb). reflexivity.
    + apply IH; assumption.
Qed.

Lemma pending_urls_of_filter (ts : list Task) :
  pending_urls_of (filter is_process ts) = pending_urls_of ts.
Proof.
  induction ts as [|t ts IH]; [reflexivity|].
  simpl. unfold is_process at 1.
  destruct (String.eqb (name t) "process") eqn:E; [|exact IH].
  simpl. rewrite E, IH. reflexivity.
Qed.

Lemma pending_urls_of_raises (ts : list Task) (t : Task) :
  In t ts -> name t = "process" -> args t = [] ->
  pending_urls_of ts = Raised IndexError.
Proof.
  induction ts as [|t0 ts IH]; intros Hin Hn Ha; [contradiction|].
  simpl. destruct Hin as [->|Hin].
  - rewrite Hn, Ha. reflexivity.
  - rewrite (IH Hin Hn Ha).
    destruct (String.eqb (name t0) "process"); [|reflexivity].
    destruct (args t0); reflexivity.
Qed.

Lemma pending_urls_of_first_args (ts : list Task) :
  Forall (fun t => name t = "process" /\ exists u, args t = [u]) ts ->
  pending_urls_of ts = Returned (first_args ts).
Proof.
  induction 1 as [|t ts [Hn [u Ha]] _ IH]; [reflexivity|].
  change (pending_urls_of (t :: ts))
    with (if String.eqb (name t) "process" then
            match args t with
            | [] => Raised IndexError
            | a :: _ =>
                match pending_urls_of ts with
                | Returned l => Returned (a :: l)
                | Raised e => Raised e
                end
            end
          else pending_urls_of ts).
  change (first_args (t :: ts)) with (firstn 1 (args t) ++ first_args ts).
  rewrite Hn, Ha, IH. reflexivity.
Qed.

(** ** Locks *)

Lemma locked_after_expiry (u : string) (q : Huey) :
  locked u (after_expiry q) = true <->
  exists l, In l (locks q) /\ lock_key l = u /\ lock_age l <= 1800.
Proof.
  rewrite locked_iff, locks_after_expiry. split.
  - intros [l [Hin Hk]]. apply filter_In in Hin. destruct Hin as [Hin Ha].
    exists l. repeat split; auto. unfold expired_lock in Ha.
    apply negb_true_iff, Z.ltb_ge in Ha. exact Ha.
  - intros [l [Hin [Hk Ha]]]. exists l. split; [|exact Hk].
    apply filter_In. split; [exact Hin|]. unfold expired_lock.
    apply negb_true_iff, Z.ltb_ge. exact Ha.
Qed.

Lemma after_expiry_twice (q : Huey) :
  after_expiry (after_expiry q) = after_expiry q.
Proof.
  unfold after_expiry, expire_locks. cbn [queue pending_tasks locks].
  f_equal. apply RetentionFacts.filter_everything.
  intros l Hl. apply filter_In in Hl. tauto.
Qed.

(** ** The loop *)

Section LoopMore.

Variable get_parser : string -> option ParserCls.

Abbreviation run_loop := (enqueue_loop get_parser).

Ltac round pend f q :=
  let Hq := fresh "Hqueued" in
  let Hl := fresh "Hlocked" in
  let Hp := fresh "Hparser" in
  let cls := fresh "cls" in
  destruct (str_in (url f) pend) eqn:Hq;
  [ rewrite (loop_queued get_parser pend f _ _ q) by assumption
  | destruct (locked (url f) q) eqn:Hl;
    [ rewrite (loop_running get_parser pend f _ _ q) by assumption
    | destruct (get_parser (basename (url f))) as [cls|] eqn:Hp;
      [ rewrite (loop_submit get_parser pend f _ _ q cls) by assumption
      | rewrite (loop_unknown get_parser pend f _ _ q) by assumption ] ] ].

(** The loop reads the locks of the queue and nothing else of it. *)
Lemma loop_reads_locks files : forall pend n q q',
  locks q = locks q' ->
  outcome (run_loop pend files n q) = outcome (run_loop pend files n q') /\
  trace (run_loop pend files n q) = trace (run_loop pend files n q').
Proof.
  induction files as [|f rest IH]; intros pend n q q' Hlocks.
  - simpl. auto.
  - assert (locked (url f) q' = locked (url f) q) as Hsame
      by (unfold locked; rewrite Hlocks; reflexivity).
    round pend f q.
    + rewrite (loop_queued get_parser pend f _ _ q') by assumption.
      cbn [outcome trace]. destruct (IH pend n q q' Hlocks) as [-> ->]. auto.
    + rewrite (loop_running get_parser pend f _ _ q') by congruence.
      cbn [outcome trace]. destruct (IH pend n q q' Hlocks) as [-> ->]. auto.
    + rewrite (loop_submit get_parser pend f _ _ q' cls) by congruence.
      cbn [outcome trace].
      destruct (IH pend (n + 1)
                  (mkHuey (pending_tasks q ++
                             [mkTask "process" [url f] (PRIORITY cls)])
                          (locks q))
                  (mkHuey (pending_tasks q' ++
                             [mkTask "process" [url f] (PRIORITY cls)])
                          (locks q'))
                  Hlocks) as [-> ->].
      auto.
    + rewrite (loop_unknown get_parser pend f _ _ q') by congruence.
      cbn [outcome trace]. auto.
Qed.

(** When the loop completes, it has submitted the URLs that pass its test,
    in the order of discovery. *)
Lemma loop_order files : forall pend n q m,
  outcome (run_loop pend files n q) = Returned m ->
  first_args (submissions (trace (run_loop pend files n q)))
  = filter (eligible_url pend q) (map url files).
Proof.
  induction files as [|f rest IH]; intros pend n q m.
  - reflexivity.
  - round pend f q; cbn [outcome trace]; intros Hm.
    + simpl. unfold eligible_url at 1. rewrite Hqueued. simpl.
      apply (IH pend n q m Hm).
    + simpl. unfold eligible_url at 1. rewrite Hqueued, Hlocked. simpl.
      apply (IH pend n q m Hm).
    + simpl. unfold eligible_url at 1. rewrite Hqueued, Hlocked. simpl.
      f_equal. exact (IH pend (n + 1) _ m Hm).
    + discriminate.
Qed.

(** When no URL passes the test, the loop does nothing. *)
Lemma loop_idle files : forall pend n q,
  (forall f, In f files -> eligible_url pend q (url f) = false) ->
  outcome (run_loop pend files n q) = Returned n /\
  queue (run_loop pend files n q) = q /\
  submissions (trace (run_loop pend files n q)) = [].
Proof.
  induction files as [|f rest IH]; intros pend n q Hnone.
  - simpl. auto.
  - assert (forall g, In g rest -> eligible_url pend q (url g) = false)
      as Hrest by (intros g Hg; apply Hnone; right; exact Hg).
    pose proof (Hnone f (or_introl eq_refl)) as Hf. unfold eligible_url in Hf.
    round pend f q; cbn [outcome queue trace]; simpl submissions.
    + apply IH. exact Hrest.
    + apply IH. exact Hrest.
    + rewrite ?Hqueued, ?Hlocked in Hf. discriminate.
    + rewrite ?Hqueued, ?Hlocked in Hf. discriminate.
Qed.

Lemma summaries_app (tr1 tr2 : list Event) :
  summaries (tr1 ++ tr2) = summaries tr1 ++ summaries tr2.
Proof.
  induction tr1 as [|e tr1 IH]; [reflexivity|].
  destruct e as [| | | | |lvl m]; simpl; try exact IH.
  destruct lvl; try exact IH. destruct m; try exact IH.
  simpl. rewrite IH. reflexivity.
Qed.

Lemma summaries_prologue (q : Huey) : summaries (prologue q) = [].
Proof.
  unfold prologue. simpl. destruct (truthy (expired_keys q)); reflexivity.
Qed.

Lemma loop_no_summary files : forall pend n q,
  summaries (trace (run_loop pend files n q)) = [].
Proof.
  induction files as [|f rest IH]; intros pend n q.
  - reflexivity.
  - round pend f q; cbn [trace]; simpl; try apply IH. reflexivity.
Qed.

(** The tasks a call submits are process tasks with the URL as their one
    argument. *)
Lemma poll_submissions_shape files q :
  Forall (fun t => name t = "process" /\ exists u, args t = [u])
         (submissions (trace (poll get_parser files true q))).
Proof.
  apply Forall_forall. intros t Ht.
  destruct (pending_urls_of (pending_tasks q)) as [urls|e] eqn:Hp.
  - rewrite (poll_submissions get_parser files q urls Hp) in Ht.
    destruct (loop_submissions get_parser _ _ _ _ _ Ht)
      as [f [cls [_ [_ [_ ->]]]]].
    split; [reflexivity|]. exists (url f). reflexivity.
  - rewrite (poll_no_submissions get_parser files q e Hp) in Ht.
    contradiction.
Qed.

End LoopMore.

Lemma str_in_In (u : string) (l : list string) :
  str_in u l = true <-> In u l.
Proof.
  unfold str_in. rewrite existsb_exists. split.
  - intros [x [Hx E]]. apply String.eqb_eq in E. subst x. exact Hx.
  - intros H. exists u. split; [exact H|apply String.eqb_refl].
Qed.

Lemma first_args_length (ts : list Task) :
  Forall (fun t => name t = "process" /\ exists u, args t = [u]) ts ->
  List.length (first_args ts) = List.length ts.
Proof.
  induction 1 as [|t ts [_ [u Ha]] _ IH]; [reflexivity|].
  change (first_args (t :: ts)) with (firstn 1 (args t) ++ first_args ts).
  rewrite Ha. simpl. rewrite IH. reflexivity.
Qed.

(** When a call with [enqueue] completes, it has submitted the URLs that
    pass the test, in the order of discovery. *)
Lemma poll_submits_in_discovery_order_aux
    (get_parser : string -> option ParserCls)
    (files fs : list UpdatedFile) (q : Huey) (pending_urls : list string) :
  outcome (poll get_parser files true q) = Returned fs ->
  pending_urls_of (pending_tasks q) = Returned pending_urls ->
  first_args (submissions (trace (poll get_parser files true q)))
  = filter (eligible_url pending_urls (after_expiry q)) (map url files).
Proof.
  intros Hret Hp. rewrite (poll_submissions get_parser files q _ Hp).
  rewrite poll_enqueue, Hp in Hret.
  destruct (outcome (enqueue_loop get_parser pending_urls files 0
                       (after_expiry q))) as [n|e] eqn:Hout;
    [|discriminate].
  exact (loop_order get_parser files pending_urls 0 (after_expiry q) n Hout).
Qed.

(** ** Properties of [poll] *)

Import Scenarios.

(** X1. A URL for which a process task is pending gets no job in a call
    with [enqueue], whether it is locked or not and however the call ends. *)
Theorem poll_skips_pending
    (get_parser : string -> option ParserCls)
    (files : list UpdatedFile) (q : Huey) (u : string) (t : Task) :
  In t (pending_tasks q) ->
  job_for u t = true ->
  jobs_submitted u (trace (poll get_parser files true q)) = 0%nat.
Proof.
  intros Hin Hjob. unfold jobs_submitted.
  destruct (pending_urls_of (pending_tasks q)) as [urls|e] eqn:Hp.
  - rewrite (poll_submissions get_parser files q urls Hp).
    apply (loop_skips get_parser files urls 0 (after_expiry q) u).
    left. exact (pending_urls_of_In _ _ t u Hp Hin Hjob).
  - rewrite (poll_no_submissions get_parser files q e Hp). reflexivity.
Qed.

Lemma poll_skips_pending_witness :
  In (mkTask "process" [url observations_file] 2)
     (pending_tasks
        (mkHuey [mkTask "process" [url observations_file] 2] [])) /\
  jobs_submitted (url observations_file)
    (trace (poll registry [observations_file; forecast_file] true
              (mkHuey [mkTask "process" [url observations_file] 2] [])))
  = 0%nat.
Proof.
  split; [left; reflexivity|].
  apply (poll_skips_pending registry [observations_file; forecast_file]
           (mkHuey [mkTask "process" [url observations_file] 2] [])
           (url observations_file)
           (mkTask "process" [url observations_file] 2)).
  - left. reflexivity.
  - reflexivity.
Defined.

(** X2. Pending tasks of other names do not count: a call with [enqueue]
    ends the same way and leaves the same trace when every pending task
    that is not named process is taken out of the queue. *)
Theorem poll_ignores_other_tasks
    (get_parser : string -> option ParserCls)
    (files : list UpdatedFile) (q : Huey) :
  outcome (poll get_parser files true q)
  = outcome (poll get_parser files true
               (mkHuey (filter is_process (pending_tasks q)) (locks q))) /\
  trace (poll get_parser files true q)
  = trace (poll get_parser files true
             (mkHuey (filter is_process (pending_tasks q)) (locks q))).
Proof.
  rewrite !poll_enqueue. cbn [pending_tasks].
  rewrite pending_urls_of_filter.
  change (prologue (mkHuey (filter is_process (pending_tasks q)) (locks q)))
    with (prologue q).
  destruct (pending_urls_of (pending_tasks q)) as [urls|e]; [|auto].
  destruct (loop_reads_locks get_parser files urls 0 (after_expiry q)
              (after_expiry
                 (mkHuey (filter is_process (pending_tasks q)) (locks q)))
              eq_refl) as [Ho Ht].
  rewrite <- Ho, <- Ht.
  destruct (outcome (enqueue_loop get_parser urls files 0 (after_expiry q)));
    auto.
Qed.

(** X3. A pending process task without a positional argument ends a call
    with [enqueue] in an IndexError. Nothing is submitted and no file is
    looked at, but the stale locks are gone by then. *)
Theorem poll_index_error
    (get_parser : string -> option ParserCls)
    (files : list UpdatedFile) (q : Huey) (t : Task) :
  In t (pending_tasks q) ->
  name t = "process" ->
  args t = [] ->
  poll get_parser files true q
  = mkRun (Raised IndexError) (after_expiry q) (prologue q).
Proof.
  intros Hin Hn Ha. rewrite poll_enqueue.
  rewrite (pending_urls_of_raises (pending_tasks q) t Hin Hn Ha).
  reflexivity.
Qed.

Lemma poll_index_error_witness :
  In (mkTask "process" [] 0) (pending_tasks malformed_queue) /\
  poll registry [observations_file] true malformed_queue
  = mkRun (Raised IndexError) (mkHuey [mkTask "process" [] 0] [])
          (prologue malformed_queue).
Proof.
  split; [left; reflexivity|].
  apply (poll_index_error registry [observations_file] malformed_queue
           (mkTask "process" [] 0)).
  - left. reflexivity.
  - reflexivity.
  - reflexivity.
Defined.


(** X5. Every job a call submits is the job of a discovered file whose URL
    is neither pending nor locked: a task named process with the URL as its
    one argument, with the PRIORITY of the parser class that [get_parser]
    resolves for the base name of the URL. *)
Theorem poll_submits_with_priority
    (get_parser : string -> option ParserCls)
    (files : list UpdatedFile) (q : Huey) (pending_urls : list string)
    (t : Task) :
  pending_urls_of (pending_tasks q) = Returned pending_urls ->
  In t (submissions (trace (poll get_parser files true q))) ->
  exists f cls,
    In f files /\
    eligible pending_urls (after_expiry q) f /\
    get_parser (basename (url f)) = Some cls /\
    t = mkTask "process" [url f] (PRIORITY cls).
Proof.
  intros Hp Ht. rewrite (poll_submissions get_parser files q _ Hp) in Ht.
  exact (loop_submissions get_parser _ _ _ _ _ Ht).
Qed.

Lemma poll_submits_with_priority_witness :
  pending_urls_of (pending_tasks busy_queue) = Returned [] /\
  In (mkTask "process" [url observations_file] 2)
     (submissions
        (trace (poll registry [forecast_file; observations_file] true
                  busy_queue))) /\
  exists f cls,
    In f [forecast_file; observations_file] /\
    eligible [] (after_expiry busy_queue) f /\
    registry (basename (url f)) = Some cls /\
    mkTask "process" [url observations_file] 2
    = mkTask "process" [url f] (PRIORITY cls).
Proof.
  split; [reflexivity|]. split; [left; reflexivity|].
  apply (poll_submits_with_priority registry
           [forecast_file; observations_file] busy_queue []
           (mkTask "process" [url observations_file] 2)).
  - reflexivity.
  - left. reflexivity.
Defined.

(** X6. When a call with [enqueue] completes, the URLs it submitted are
    the discovered URLs that are neither pending nor locked once the stale
    locks are expired, in the order of discovery, repetitions included. *)
Theorem poll_submits_in_discovery_order
    (get_parser : string -> option ParserCls)
    (files fs : list UpdatedFile) (q : Huey) (pending_urls : list string) :
  outcome (poll get_parser files true q) = Returned fs ->
  pending_urls_of (pending_tasks q) = Returned pending_urls ->
  first_args (submissions (trace (poll get_parser files true q)))
  = filter (eligible_url pending_urls (after_expiry q)) (map url files).
Proof.
  exact (poll_submits_in_discovery_order_aux get_parser files fs q
           pending_urls).
Qed.

Lemma poll_submits_in_discovery_order_witness :
  outcome (poll registry
             [observations_file; forecast_file; observations_file]
             true busy_queue)
  = Returned [observations_file; forecast_file; observations_file] /\
  pending_urls_of (pending_tasks busy_queue) = Returned [] /\
  first_args
    (submissions
       (trace (poll registry
                 [observations_file; forecast_file; observations_file]
                 true busy_queue)))
  = [url observations_file; url observations_file].
Proof.
  split; [vm_compute; reflexivity|]. split; [reflexivity|].
  apply (poll_submits_in_discovery_order registry
           [observations_file; forecast_file; observations_file]
           [observations_file; forecast_file; observations_file]
           busy_queue []).
  - vm_compute. reflexivity.
  - reflexivity.
Defined.

(** X7. Recovery after a crash: when every lock held for a URL is older
    than 1800 and the URL is not pending, a call with [enqueue] that
    completes submits a job for every time the URL was discovered, although
    the URL was locked when the call began. *)
Theorem poll_recovers_stale_lock
    (get_parser : string -> option ParserCls)
    (files fs : list UpdatedFile) (q : Huey) (pending_urls : list string)
    (u : string) :
  (forall l, In l (locks q) -> lock_key l = u -> 1800 < lock_age l) ->
  pending_urls_of (pending_tasks q) = Returned pending_urls ->
  str_in u pending_urls = false ->
  outcome (poll get_parser files true q) = Returned fs ->
  jobs_submitted u (trace (poll get_parser files true q))
  = discovered u files.
Proof.
  intros Hstale Hp Hu Hret.
  assert (locked u (after_expiry q) = false) as Hfree.
  { destruct (locked u (after_expiry q)) eqn:E; [|reflexivity].
    apply locked_after_expiry in E. destruct E as [l [Hin [Hk Ha]]].
    specialize (Hstale l Hin Hk). lia. }
  unfold jobs_submitted.
  rewrite (poll_submissions get_parser files q _ Hp).
  rewrite poll_enqueue, Hp in Hret.
  destruct (outcome (enqueue_loop get_parser pending_urls files 0
                       (after_expiry q))) as [n|e] eqn:Hout;
    [|discriminate].
  destruct (loop_counts get_parser files pending_urls 0 (after_expiry q) n
              Hout) as [_ Hjobs].
  apply Hjobs; assumption.
Qed.

Lemma poll_recovers_stale_lock_witness :
  locked (url observations_file) crashed_queue = true /\
  (forall l, In l (locks crashed_queue) ->
     lock_key l = url observations_file -> 1800 < lock_age l) /\
  jobs_submitted (url observations_file)
    (trace (poll registry [observations_file] true crashed_queue))
  = discovered (url observations_file) [observations_file] /\
  discovered (url observations_file) [observations_file] = 1%nat.
Proof.
  assert (forall l, In l (locks crashed_queue) ->
            lock_key l = url observations_file -> 1800 < lock_age l) as H.
  { intros l [<-|[]] _. reflexivity. }
  split; [reflexivity|]. split; [exact H|]. split; [|reflexivity].
  apply (poll_recovers_stale_lock registry [observations_file]
           [observations_file] crashed_queue [] (url observations_file) H).
  - reflexivity.
  - reflexivity.
  - vm_compute. reflexivity.
Defined.

(** X8. A whole cycle is idempotent: when a call with [enqueue] has
    completed, the same call on the queue it left, with the same discovered
    files, completes as well, submits nothing and leaves the queue as it
    found it. No parser is needed for that. *)
Theorem poll_again_submits_nothing
    (get_parser : string -> option ParserCls)
    (files fs : list UpdatedFile) (q : Huey) :
  outcome (poll get_parser files true q) = Returned fs ->
  outcome (poll get_parser files true
             (queue (poll get_parser files true q))) = Returned files /\
  submissions (trace (poll get_parser files true
                        (queue (poll get_parser files true q)))) = [] /\
  queue (poll get_parser files true (queue (poll get_parser files true q)))
  = queue (poll get_parser files true q).
Proof.
  intros Hret.
  destruct (pending_urls_of (pending_tasks q)) as [urls|e] eqn:Hp;
    [|rewrite poll_enqueue, Hp in Hret; discriminate].
  pose proof (poll_submits_in_discovery_order_aux get_parser files fs q urls
                Hret Hp) as Horder.
  destruct (poll_queue get_parser files q) as [Hlocks Hpend].
  pose proof (poll_submissions_shape get_parser files q) as Hshape.
  set (q1 := queue (poll get_parser files true q)) in *.
  set (subs := submissions (trace (poll get_parser files true q))) in *.
  assert (pending_urls_of (pending_tasks q1)
          = Returned (urls ++ first_args subs)) as Hp1.
  { rewrite Hpend. apply pending_urls_of_app; [exact Hp|].
    apply pending_urls_of_first_args. exact Hshape. }
  assert (after_expiry q1 = q1) as Hq1.
  { unfold after_expiry, expire_locks. cbn [queue].
    replace (filter (fun l => negb (expired_lock 1800 l)) (locks q1))
      with (locks q1).
    - destruct q1. reflexivity.
    - rewrite Hlocks, locks_after_expiry. symmetry.
      apply RetentionFacts.filter_everything.
      intros l Hl. apply filter_In in Hl. tauto. }
  assert (forall f, In f files ->
            eligible_url (urls ++ first_args subs) q1 (url f) = false)
    as Hnone.
  { intros f Hf. unfold eligible_url.
    destruct (str_in (url f) (urls ++ first_args subs)) eqn:E1;
      [reflexivity|].
    destruct (locked (url f) q1) eqn:E2; [reflexivity|]. exfalso.
    assert (In (url f) (first_args subs)) as Hin.
    { rewrite Horder. apply filter_In. split; [apply in_map; exact Hf|].
      unfold eligible_url.
      assert (locked (url f) (after_expiry q) = false) as ->.
      { unfold locked in *. rewrite <- Hlocks. exact E2. }
      destruct (str_in (url f) urls) eqn:E3; [|reflexivity].
      apply str_in_In in E3.
      assert (str_in (url f) (urls ++ first_args subs) = true) as C
        by (apply str_in_In, in_or_app; left; exact E3).
      congruence. }
    assert (str_in (url f) (urls ++ first_args subs) = true) as C
      by (apply str_in_In, in_or_app; right; exact Hin).
    congruence. }
  destruct (loop_idle get_parser files (urls ++ first_args subs) 0 q1 Hnone)
    as [Ho [Hq Hs]].
  rewrite poll_enqueue, Hp1, Hq1, Ho. cbn [outcome queue trace].
  rewrite !submissions_app, submissions_prologue, Hs. auto.
Qed.

Lemma poll_again_submits_nothing_witness :
  outcome (poll registry [observations_file; forecast_file] true busy_queue)
  = Returned [observations_file; forecast_file] /\
  submissions
    (trace (poll registry [observations_file; forecast_file] true busy_queue))
  = [mkTask "process" [url observations_file] 2] /\
  outcome (poll registry [observations_file; forecast_file] true
             (queue (poll registry [observations_file; forecast_file] true
                       busy_queue)))
  = Returned [observations_file; forecast_file] /\
  submissions
    (trace (poll registry [observations_file; forecast_file] true
              (queue (poll registry [observations_file; forecast_file] true
                        busy_queue)))) = [] /\
  queue (poll registry [observations_file; forecast_file] true
           (queue (poll registry [observations_file; forecast_file] true
                     busy_queue)))
  = queue (poll registry [observations_file; forecast_file] true busy_queue).
Proof.
  split; [vm_compute; reflexivity|]. split; [vm_compute; reflexivity|].
  apply (poll_again_submits_nothing registry
           [observations_file; forecast_file]
           [observations_file; forecast_file] busy_queue).
  vm_compute. reflexivity.
Defined.

(** X9. When a call with [enqueue] completes, it logs one summary. The
    number it reports as enqueued is the number of its submissions, and the
    queue size it reports is the number of process tasks that are pending
    when the call ends. *)
Theorem poll_summary_counts_queue
    (get_parser : string -> option ParserCls)
    (files fs : list UpdatedFile) (q : Huey) :
  outcome (poll get_parser files true q) = Returned fs ->
  exists pending_after,
    pending_urls_of (pending_tasks (queue (poll get_parser files true q)))
    = Returned pending_after /\
    summaries (trace (poll get_parser files true q))
    = [(Z.of_nat (List.length
                    (submissions (trace (poll get_parser files true q)))),
        Z.of_nat (List.length pending_after))].
Proof.
  intros Hret.
  destruct (pending_urls_of (pending_tasks q)) as [urls|e] eqn:Hp;
    [|rewrite poll_enqueue, Hp in Hret; discriminate].
  destruct (poll_queue get_parser files q) as [_ Hpend].
  pose proof (poll_submissions_shape get_parser files q) as Hshape.
  exists (urls ++ first_args
                    (submissions (trace (poll get_parser files true q)))).
  split.
  - rewrite Hpend. apply pending_urls_of_app; [exact Hp|].
    apply pending_urls_of_first_args. exact Hshape.
  - rewrite length_app, (first_args_length _ Hshape).
    rewrite (poll_submissions get_parser files q urls Hp).
    rewrite poll_enqueue, Hp in Hret |- *.
    destruct (outcome (enqueue_loop get_parser urls files 0
                         (after_expiry q))) as [n|e] eqn:Hout;
      [|discriminate].
    destruct (loop_counts get_parser files urls 0 (after_expiry q) n Hout)
      as [Hn _].
    cbn [trace]. rewrite !summaries_app, summaries_prologue, loop_no_summary.
    simpl. rewrite Hn. repeat f_equal; lia.
Qed.

Lemma poll_summary_counts_queue_witness :
  outcome (poll registry [observations_file; observations_file] true
             (mkHuey [mkTask "process" [url forecast_file] 10;
                      mkTask "clean" [] 0] []))
  = Returned [observations_file; observations_file] /\
  exists pending_after,
    pending_urls_of
      (pending_tasks
         (queue (poll registry [observations_file; observations_file] true
                   (mkHuey [mkTask "process" [url forecast_file] 10;
                            mkTask "clean" [] 0] []))))
    = Returned pending_after /\
    summaries
      (trace (poll registry [observations_file; observations_file] true
                (mkHuey [mkTask "process" [url forecast_file] 10;
                         mkTask "clean" [] 0] [])))
    = [(Z.of_nat (List.length
                    (submissions
                       (trace (poll registry
                                 [observations_file; observations_file] true
                                 (mkHuey [mkTask "process" [url forecast_file]
                                                 10;
                                          mkTask "clean" [] 0] []))))),
        Z.of_nat (List.length pending_after))].
Proof.
  split; [vm_compute; reflexivity|].
  apply (poll_summary_counts_queue registry
           [observations_file; observations_file]
           [observations_file; observations_file]
           (mkHuey [mkTask "process" [url forecast_file] 10;
                    mkTask "clean" [] 0] [])).
  vm_compute. reflexivity.
Defined.

End SchedulerMore.

(* ================================================================== *)
(** * More about the retention engine *)

Module RetentionMore.

Import Retention Views RetentionFacts.

(** ** Counting rows *)







(** ** Which rows a run deletes *)

(** A row of a source that is not recent is out of reach of Pass A. *)
Lemma not_obsolete (d : Database) (src : Source) (x : Row) :
  primary_key (sources d) ->
  In src (sources d) ->
  source_id x = id src ->
  observation_type src <> "recent" ->
  forall row, In row (obsolete_recent (sources d)) -> obsolete row x = false.
Proof.
  intros Hkey Hsrc Hid Hobs [sid thr] Hrow.
  apply obsolete_recent_In in Hrow.
  destruct Hrow as [r [h [Hr [_ [Hs [_ Hrid]]]]]].
  unfold obsolete. simpl. apply andb_false_iff. left. apply Z.eqb_neq.
  intros E. apply superseded_iff in Hs. destruct Hs as [_ [_ [Hrec _]]].
  assert (r = src) by (apply (primary_key_inj (sources d)); auto; congruence).
  subst r. contradiction.
Qed.

(** The ids selected for an observation type are not those of a source of
    another type. *)
Lemma not_of_type (d : Database) (src : Source) (obs : string) :
  primary_key (sources d) ->
  In src (sources d) ->
  observation_type src <> obs ->
  ~ In (id src) (ids_of_type obs (sources d)).
Proof.
  intros Hkey Hsrc Hobs Hin. apply ids_of_type_In in Hin.
  destruct Hin as [s [Hs [Ho Hid]]].
  assert (s = src) by (apply (primary_key_inj (sources d)); auto).
  subst s. contradiction.
Qed.

Lemma of_type (d : Database) (src : Source) :
  In src (sources d) ->
  In (id src) (ids_of_type (observation_type src) (sources d)).
Proof.
  intros Hsrc. apply ids_of_type_In. exists src. auto.
Qed.

Lemma outdated_of_type (d : Database) (src : Source) (now interval : Z)
    (x : Row) :
  In src (sources d) ->
  source_id x = id src ->
  (outdated (ids_of_type (observation_type src) (sources d)) now interval x
   = false <-> now - interval <= timestamp x).
Proof.
  intros Hsrc Hid. rewrite outdated_false. split.
  - intros [H|H]; [|exact H]. exfalso. apply H. rewrite Hid.
    apply of_type. exact Hsrc.
  - intros H. right. exact H.
Qed.

(** ** LIKE *)

Lemma like_percent (pat s : string) :
  like (String "%" pat) s = true <->
  exists pre suf, s = String.append pre suf /\ like pat suf = true.
Proof.
  induction s as [|c s IH].
  - simpl. rewrite orb_false_r. split.
    + intros H. exists EmptyString, EmptyString. auto.
    + intros [pre [suf [E H]]]. destruct pre; [|discriminate].
      simpl in E. subst suf. exact H.
  - change (like (String "%" pat) (String c s))
      with (like pat (String c s) || like (String "%" pat) s).
    rewrite orb_true_iff, IH. split.
    + intros [H|[pre [suf [E H]]]].
      * exists EmptyString, (String c s). auto.
      * exists (String c pre), suf. simpl. rewrite E. auto.
    + intros [pre [suf [E H]]]. destruct pre as [|c' pre].
      * simpl in E. subst suf. left. exact H.
      * simpl in E. injection E as <- E. right. exists pre, suf. auto.
Qed.

Lemma like_percent_only (s : string) : like "%" s = true.
Proof.
  apply like_percent. exists s, EmptyString. split; [|reflexivity].
  induction s as [|c s IH]; simpl; [|rewrite <- IH]; reflexivity.
Qed.

Lemma like_literal (c : ascii) (pat s : string) :
  Ascii.eqb c "%" = false ->
  Ascii.eqb c "_" = false ->
  (like (String c pat) s = true <->
   exists s', s = String c s' /\ like pat s' = true).
Proof.
  intros H1 H2. simpl. rewrite H1. destruct s as [|d s].
  - split; [discriminate|]. intros [s' [E _]]. discriminate.
  - rewrite H2. simpl. rewrite andb_true_iff, Ascii.eqb_eq. split.
    + intros [<- H]. exists s. auto.
    + intros [s' [E H]]. injection E as <- <-. auto.
Qed.

Lemma like_underscore (pat s : string) :
  like (String "_" pat) s = true <->
  exists d s', s = String d s' /\ like pat s' = true.
Proof.
  simpl. destruct s as [|d s].
  - split; [discriminate|]. intros [d [s' [E _]]]. discriminate.
  - split.
    + intros H. exists d, s. auto.
    + intros [d' [s' [E H]]]. injection E as <- <-. exact H.
Qed.

(** What the pattern of [parsed_files_expiry_intervals] selects. *)
Lemma like_station_metadata (s : string) :
  like "%/Z__C_EDZW_%" s = true <-> station_metadata_shape s.
Proof.
  unfold station_metadata_shape. rewrite like_percent. split.
  - intros [pre [suf [E H]]]. exists pre.
    apply like_literal in H; [|reflexivity|reflexivity].
    destruct H as [s1 [-> H]].
    apply like_literal in H; [|reflexivity|reflexivity].
    destruct H as [s2 [-> H]].
    apply like_underscore in H. destruct H as [a [s3 [-> H]]].
    apply like_underscore in H. destruct H as [b [s4 [-> H]]].
    apply like_literal in H; [|reflexivity|reflexivity].
    destruct H as [s5 [-> H]].
    apply like_underscore in H. destruct H as [c [s6 [-> H]]].
    apply like_literal in H; [|reflexivity|reflexivity].
    destruct H as [s7 [-> H]].
    apply like_literal in H; [|reflexivity|reflexivity].
    destruct H as [s8 [-> H]].
    apply like_literal in H; [|reflexivity|reflexivity].
    destruct H as [s9 [-> H]].
    apply like_literal in H; [|reflexivity|reflexivity].
    destruct H as [s10 [-> H]].
    apply like_underscore in H. destruct H as [e [post [-> _]]].
    exists post, a, b, c, e. exact E.
  - intros [pre [post [a [b [c [e E]]]]]]. exists pre. eexists.
    split; [exact E|].
    apply like_literal; [reflexivity|reflexivity|]. eexists. split; [reflexivity|].
    apply like_literal; [reflexivity|reflexivity|]. eexists. split; [reflexivity|].
    apply like_underscore. do 2 eexists. split; [reflexivity|].
    apply like_underscore. do 2 eexists. split; [reflexivity|].
    apply like_literal; [reflexivity|reflexivity|]. eexists. split; [reflexivity|].
    apply like_underscore. do 2 eexists. split; [reflexivity|].
    apply like_literal; [reflexivity|reflexivity|]. eexists. split; [reflexivity|].
    apply like_literal; [reflexivity|reflexivity|]. eexists. split; [reflexivity|].
    apply like_literal; [reflexivity|reflexivity|]. eexists. split; [reflexivity|].
    apply like_literal; [reflexivity|reflexivity|]. eexists. split; [reflexivity|].
    apply like_underscore. do 2 eexists. split; [reflexivity|].
    apply like_percent_only.
Qed.

(** ** The bounds a run leaves *)

(** When no source owns rows in both tables, the bounds that a run leaves
    enclose the rows that it leaves. *)
Lemma clean_encloses (now : Z) (d : Database) :
  tables_disjoint d -> bounds_enclose (db (clean now d)).
Proof.
  intros Hdis src x Hsrc Hx Hid.
  rewrite clean_sources in Hsrc.
  apply in_map_iff in Hsrc. destruct Hsrc as [s1 [<- Hs1]].
  apply in_map_iff in Hs1. destruct Hs1 as [s0 [<- _]].
  set (w := weather (db (clean now d))) in *.
  set (y := synop (db (clean now d))) in *.
  destruct (update_source_identity (record_range w) s0) as [Hid0 _].
  destruct (update_source_identity (record_range y)
              (update_source (record_range w) s0)) as [Hid1 _].
  rewrite Hid1 in Hid.
  assert (forall rows src',
            In x rows -> source_id x = id src' ->
            recomputed_bounds (rows_of (id src') rows)
              (update_source (record_range rows) src')) as Hrec.
  { intros rows src' Hin Hsid. apply recomputed_bounds_update.
    intros E.
    assert (In x (rows_of (id src') rows)) as C
      by (apply rows_of_In; auto).
    rewrite E in C. contradiction. }
  assert (forall rows src', In x rows -> source_id x = id src' ->
            recomputed_bounds (rows_of (id src') rows) src' ->
            exists lo hi, first_record src' = Some lo /\
              last_record src' = Some hi /\ lo <= timestamp x <= hi)
    as Hwithin.
  { intros rows src' Hin Hsid [lo [hi [Hlo [Hhi [_ [_ Hall]]]]]].
    exists lo, hi. repeat split; auto; apply Hall; apply rows_of_In; auto. }
  destruct Hx as [Hx|Hx].
  - assert (rows_of (id (update_source (record_range w) s0)) y = []) as Hnone.
    { apply filter_nothing. intros z Hz. apply Z.eqb_neq. intros E.
      apply (Hdis x z).
      - apply (clean_weather now d x). exact Hx.
      - apply (clean_synop now d z). exact Hz.
      - congruence. }
    rewrite (update_source_unchanged y _ Hnone).
    rewrite Hid0 in Hid.
    apply (Hwithin w); [exact Hx| |].
    + rewrite Hid0. exact Hid.
    + rewrite Hid0. apply Hrec; assumption.
  - apply (Hwithin y); [exact Hx| |].
    + rewrite Hid1. exact Hid.
    + rewrite Hid1. apply Hrec; assumption.
Qed.

(** A run on a database whose bounds enclose its rows leaves nothing to
    delete for a run that is not later. *)
Lemma clean_then_quiet (now1 now2 : Z) (d : Database) :
  now2 <= now1 ->
  bounds_enclose d ->
  no_deletions (clean now2 (db (clean now1 d))).
Proof.
  intros Hle Henc. apply clean_quiet.
  - apply clean_settles_overlap. exact Henc.
  - intros x Hx. rewrite clean_ids_of_type.
    apply (outdated_earlier _ now1); [exact Hle|].
    apply (clean_weather now1 d x). exact Hx.
  - intros x Hx. rewrite clean_ids_of_type.
    apply (outdated_earlier _ now1); [exact Hle|].
    apply (clean_weather now1 d x). exact Hx.
  - intros x Hx. rewrite clean_ids_of_type.
    apply (outdated_earlier _ now1); [exact Hle|].
    apply (clean_synop now1 d x). exact Hx.
  - intros f Hf. apply (stale_file_earlier now1); [exact Hle|].
    apply (clean_parsed_files now1 d f). exact Hf.
Qed.

(** ** Properties of [clean] *)

Import Scenarios.


(** X11. Expiry by age is exact. In a catalogue keyed by [id], a row of a
    table whose source has an observation type that [expiry_intervals]
    lists for that table survives [clean] if and only if its timestamp is
    not earlier than [now] minus the interval; a row that is exactly that
    old survives. *)
Theorem clean_expires_by_age (now : Z) (d : Database) (table : TableName)
    (entries : list (string * Z)) (interval : Z) (src : Source) (x : Row) :
  primary_key (sources d) ->
  In (table, entries) expiry_intervals ->
  In (observation_type src, interval) entries ->
  In src (sources d) ->
  In x (table_rows table d) ->
  source_id x = id src ->
  (In x (table_rows table (db (clean now d))) <->
   now - interval <= timestamp x).
Proof.
  intros Hkey Htable Hentry Hsrc Hx Hid.
  assert (forall obs, observation_type src <> obs ->
            forall i, outdated (ids_of_type obs (sources d)) now i x = false)
    as Hother.
  { intros obs Hobs i. apply outdated_false. left. rewrite Hid.
    apply not_of_type; assumption. }
  destruct Htable as [E|[E|[]]]; injection E as <- <-.
  - cbn [table_rows] in *. rewrite clean_weather.
    destruct Hentry as [E|[E|[]]]; injection E as Ho <-.
    + rewrite Ho. rewrite (outdated_of_type d src) by assumption.
      split.
      * intros [_ [_ [H _]]]. exact H.
      * intros H. repeat split; auto.
        -- apply (not_obsolete d src); auto. rewrite <- Ho. discriminate.
        -- apply Hother. rewrite <- Ho. discriminate.
    + rewrite Ho. rewrite (outdated_of_type d src) by assumption.
      split.
      * intros [_ [_ [_ H]]]. exact H.
      * intros H. repeat split; auto.
        -- apply (not_obsolete d src); auto. rewrite <- Ho. discriminate.
        -- apply Hother. rewrite <- Ho. discriminate.
  - cbn [table_rows] in *. rewrite clean_synop.
    destruct Hentry as [E|[]]; injection E as Ho <-.
    rewrite Ho. rewrite (outdated_of_type d src) by assumption. tauto.
Qed.

Lemma clean_expires_by_age_witness :
  (In (mkRow 7 (noon - hours 3) [4])
      (table_rows Weather (db (clean noon forecast_db))) <->
   noon - hours 3 <= timestamp (mkRow 7 (noon - hours 3) [4])) /\
  (In (mkRow 3 (noon - hours 40) [3])
      (table_rows Synop (db (clean noon synop_db))) <->
   noon - hours 30 <= timestamp (mkRow 3 (noon - hours 40) [3])).
Proof.
  split.
  - apply (clean_expires_by_age noon forecast_db Weather
             [("forecast", hours 3); ("current", hours 48)] (hours 3)
             (mkSource 7 "10001" "01234" "forecast"
                       (Some (noon - hours 3)) (Some (noon - hours 3)))).
    + repeat constructor; simpl; intuition discriminate.
    + left. reflexivity.
    + left. reflexivity.
    + left. reflexivity.
    + left. reflexivity.
    + reflexivity.
  - apply (clean_expires_by_age noon synop_db Synop
             [("synop", hours 30)] (hours 30)
             (mkSource 3 "10001" "01234" "synop"
                       (Some (noon - hours 40)) (Some noon))).
    + repeat constructor; simpl; intuition discriminate.
    + right. left. reflexivity.
    + left. reflexivity.
    + left. reflexivity.
    + right. right. left. reflexivity.
    + reflexivity.
Defined.

(** X12. Rows of other observation types never expire. In a catalogue
    keyed by [id], a row of [weather] whose source is neither recent nor
    forecast nor current (a historical one, say), and a row of [synop]
    whose source is not of type synop, survives [clean] whatever its age. *)
Theorem clean_keeps_other_types (now : Z) (d : Database)
    (table : TableName) (src : Source) (x : Row) :
  primary_key (sources d) ->
  In src (sources d) ->
  In x (table_rows table d) ->
  source_id x = id src ->
  ~ In (observation_type src) (purged_types table) ->
  In x (table_rows table (db (clean now d))).
Proof.
  intros Hkey Hsrc Hx Hid Hobs.
  assert (forall obs, In obs (purged_types table) ->
            forall i, outdated (ids_of_type obs (sources d)) now i x = false)
    as Hother.
  { intros obs Hin i. apply outdated_false. left. rewrite Hid.
    apply not_of_type; auto. intros E. apply Hobs. rewrite E. exact Hin. }
  destruct table; cbn [table_rows purged_types] in *.
  - apply clean_weather. repeat split; auto.
    + apply (not_obsolete d src); auto. intros E. apply Hobs. rewrite E.
      left. reflexivity.
    + apply Hother. right. left. reflexivity.
    + apply Hother. right. right. left. reflexivity.
  - apply clean_synop. split; auto. apply Hother. left. reflexivity.
Qed.

Lemma clean_keeps_other_types_witness :
  In (mkRow 2 (january 10) [11])
     (table_rows Weather (db (clean (january 10 + weeks 520) station_db))).
Proof.
  apply (clean_keeps_other_types (january 10 + weeks 520) station_db Weather
           source_b (mkRow 2 (january 10) [11])).
  - repeat constructor; simpl; intuition discriminate.
  - right. left. reflexivity.
  - right. right. left. reflexivity.
  - reflexivity.
  - simpl. intuition discriminate.
Defined.

(** X13. The guard of Pass A. In a catalogue keyed by [id], when the first
    record of a recent source is earlier than the last record of no
    historical source of its station (there is none, or a bound is NULL, or
    the first record is not earlier), [clean] deletes none of the source's
    weather rows, however old they are. *)
Theorem clean_keeps_unsuperseded (now : Z) (d : Database) (r : Source)
    (x : Row) :
  primary_key (sources d) ->
  In r (sources d) ->
  observation_type r = "recent" ->
  (forall h, In h (sources d) ->
     wmo_station_id r = wmo_station_id h ->
     dwd_station_id r = dwd_station_id h ->
     observation_type h = "historical" ->
     sql_lt (first_record r) (last_record h) = false) ->
  In x (weather d) ->
  source_id x = id r ->
  In x (weather (db (clean now d))).
Proof.
  intros Hkey Hr Hrec Hguard Hx Hid.
  apply clean_weather. split; [exact Hx|]. split; [|split].
  - intros [sid thr] Hrow. apply obsolete_recent_In in Hrow.
    destruct Hrow as [r' [h [Hr' [Hh [Hs [_ Hrid]]]]]].
    unfold obsolete. simpl. apply andb_false_iff. left. apply Z.eqb_neq.
    intros E.
    assert (r' = r) by (apply (primary_key_inj (sources d)); auto;
                        congruence).
    subst r'. apply superseded_iff in Hs.
    destruct Hs as [Hw [Hd [_ [Hhist [t0 [t1 [H0 [H1 Hlt]]]]]]]].
    specialize (Hguard h Hh Hw Hd Hhist). rewrite H0, H1 in Hguard.
    simpl in Hguard. apply Z.ltb_ge in Hguard. lia.
  - apply outdated_false. left. rewrite Hid. apply not_of_type; auto.
    rewrite Hrec. discriminate.
  - apply outdated_false. left. rewrite Hid. apply not_of_type; auto.
    rewrite Hrec. discriminate.
Qed.

Lemma clean_keeps_unsuperseded_witness :
  In (mkRow 1 (january 2) [12]) (weather (db (clean noon stale_db))).
Proof.
  apply (clean_keeps_unsuperseded noon stale_db
           (mkSource 1 "10001" "01234" "recent"
                     (Some (january 20)) (Some (january 20)))
           (mkRow 1 (january 2) [12])).
  - repeat constructor; simpl; intuition discriminate.
  - left. reflexivity.
  - reflexivity.
  - intros h [<-|[<-|[]]] _ _ Hhist; [discriminate Hhist|reflexivity].
  - left. reflexivity.
  - reflexivity.
Defined.

(** X14. Expiry of the ledger. An entry of [parsed_files] is deleted by
    [clean] exactly when it was parsed more than a week before [now] and its
    URL has, somewhere, a slash and a Z, any two characters, a C, any one
    character, EDZW and one more character: the underscores of the pattern
    are wildcards of LIKE, not underscores. Every other entry survives. *)
Theorem clean_expires_ledger (now : Z) (d : Database) (f : ParsedFile) :
  In f (parsed_files d) ->
  (In f (parsed_files (db (clean now d))) <->
   ~ (station_metadata_shape (Retention.url f) /\
      parsed_at f < now - 604800)).
Proof.
  intros Hf. rewrite clean_parsed_files. unfold stale_file. cbn [fst snd].
  change (weeks 1) with 604800.
  rewrite andb_false_iff, Z.ltb_ge, <- like_station_metadata. split.
  - intros [_ [H|H]] [H1 H2]; [congruence|lia].
  - intros H. split; [exact Hf|].
    destruct (like "%/Z__C_EDZW_%" (Retention.url f)); [|left; reflexivity].
    right. destruct (Z.le_gt_cases (now - 604800) (parsed_at f)); [assumption|].
    exfalso. apply H. split; [reflexivity|]. lia.
Qed.

Lemma clean_expires_ledger_witness :
  (In (mkParsedFile "https://dwd.example/synop/Z__C_EDZW_20240115.bin"
                    (january 2))
      (parsed_files (db (clean noon synop_db))) <->
   ~ (station_metadata_shape
        "https://dwd.example/synop/Z__C_EDZW_20240115.bin" /\
      january 2 < noon - 604800)) /\
  station_metadata_shape "https://dwd.example/synop/ZxyCzEDZWq" /\
  ~ In (mkParsedFile "https://dwd.example/synop/Z__C_EDZW_20240115.bin"
                     (january 2))
       (parsed_files (db (clean noon synop_db))).
Proof.
  split; [|split].
  - apply (clean_expires_ledger noon synop_db
             (mkParsedFile "https://dwd.example/synop/Z__C_EDZW_20240115.bin"
                           (january 2))).
    left. reflexivity.
  - apply like_station_metadata. reflexivity.
  - vm_compute. intros [].
Defined.

(** X15. A run repairs the bounds. When no source owns rows in both
    [weather] and [synop], then after [clean], whatever the bounds were
    before, every stored row of a source lies between the source's first
    and last record. *)
Theorem clean_bounds_enclose (now : Z) (d : Database) :
  tables_disjoint d ->
  bounds_enclose (db (clean now d)).
Proof.
  exact (clean_encloses now d).
Qed.

Lemma clean_bounds_enclose_witness :
  tables_disjoint stale_db /\
  ~ bounds_enclose stale_db /\
  bounds_enclose (db (clean noon stale_db)).
Proof.
  assert (tables_disjoint stale_db) as Hdis by (intros x y _ []).
  split; [exact Hdis|]. split.
  - intros H.
    destruct (H (mkSource 1 "10001" "01234" "recent"
                          (Some (january 20)) (Some (january 20)))
                (mkRow 1 (january 2) [12]))
      as [lo [hi [Hlo [_ [Hle _]]]]].
    + left. reflexivity.
    + left. left. reflexivity.
    + reflexivity.
    + injection Hlo as <-. vm_compute in Hle. apply Hle. reflexivity.
  - apply (clean_bounds_enclose noon stale_db). exact Hdis.
Defined.

(** X16. Two runs settle the database. When no source owns rows in both
    [weather] and [synop], then after one run of [clean], whatever the
    bounds were before it, a second run followed by a third that is not
    later than the second leaves the third nothing to delete. *)
Theorem clean_third_run_quiet (now1 now2 now3 : Z) (d : Database) :
  tables_disjoint d ->
  now3 <= now2 ->
  no_deletions (clean now3 (db (clean now2 (db (clean now1 d))))).
Proof.
  intros Hdis Hle. apply clean_then_quiet; [exact Hle|].
  apply clean_encloses. exact Hdis.
Qed.

Lemma clean_third_run_quiet_witness :
  tables_disjoint stale_db /\
  ~ no_deletions (clean noon (db (clean noon stale_db))) /\
  no_deletions (clean noon (db (clean noon (db (clean noon stale_db))))).
Proof.
  assert (tables_disjoint stale_db) as Hdis by (intros x y _ []).
  split; [exact Hdis|]. split.
  - intros H. vm_compute in H. apply Forall_inv in H. discriminate H.
  - apply (clean_third_run_quiet noon noon noon stale_db Hdis).
    apply Z.le_refl.
Defined.

End RetentionMore.

(* ================================================================== *)
(** * Facts about [parse] *)

Module ParseFacts.

Import Parse.

Section Dicts.

Variable Value : Type.

Abbreviation dict := (Dict Value).

Lemma dict_get_set_same (k : string) (v : Value) (d : dict) :
  dict_get Value k (dict_set Value k v d) = Some v.
Proof.
  induction d as [|[k' v'] d IH]; simpl.
  - rewrite String.eqb_refl. reflexivity.
  - destruct (String.eqb k' k) eqn:E; simpl; rewrite E; auto.
Qed.

Lemma dict_get_set_other (k k0 : string) (v : Value) (d : dict) :
  k0 <> k ->
  dict_get Value k0 (dict_set Value k v d) = dict_get Value k0 d.
Proof.
  intros Hne. induction d as [|[k' v'] d IH]; simpl.
  - destruct (String.eqb_spec k k0); [congruence|reflexivity].
  - destruct (String.eqb_spec k' k) as [->|Hk]; simpl.
    + destruct (String.eqb_spec k k0); [congruence|reflexivity].
    + destruct (String.eqb k' k0); [reflexivity|exact IH].
Qed.

(** A key that the merged entries do not have keeps its value. *)
Lemma dict_merge_other (k0 : string) (more : dict) : forall d : dict,
  ~ In k0 (map fst more) ->
  dict_get Value k0 (dict_merge Value d more) = dict_get Value k0 d.
Proof.
  induction more as [|[k v] more IH]; intros d Hn; [reflexivity|].
  unfold dict_merge in *. simpl fold_left. rewrite IH.
  - apply dict_get_set_other. intros E. apply Hn. left. simpl. congruence.
  - intros Hin. apply Hn. right. exact Hin.
Qed.

(** An entry of a dict that is merged in is found under its key. *)
Lemma dict_merge_entry (k : string) (v : Value) (more : dict) :
  forall d : dict,
  NoDup (map fst more) ->
  In (k, v) more ->
  dict_get Value k (dict_merge Value d more) = Some v.
Proof.
  induction more as [|[k' v'] more IH]; intros d Hnd Hin; [contradiction|].
  simpl in Hnd. inversion Hnd as [|? ? Hnotin Hnd']; subst.
  unfold dict_merge in *. simpl fold_left. destruct Hin as [E|Hin].
  - injection E as -> ->.
    change (dict_get Value k
              (dict_merge Value (dict_set Value k v d) more) = Some v).
    rewrite dict_merge_other by exact Hnotin.
    apply dict_get_set_same.
  - apply IH; assumption.
Qed.

End Dicts.

(** ** Properties of [parse] *)

Section Properties.

Variable Cls : Type.
Variable Rec : Type.
Variable Value : Type.
Variable get_parser : string -> option Cls.
Variable downloaded_path : Cls -> option string -> string -> string.
Variable dwd_fingerprint : string -> Dict Value.
Variable parsed : Cls -> option string -> option string -> list Rec.
Variable of_str : string -> Value.

Abbreviation run :=
  (parse Cls Rec Value get_parser downloaded_path dwd_fingerprint parsed
         of_str).


(** X18. The fingerprint that [parse] exports for a URL holds every entry
    of [dwd_fingerprint] of the downloaded file under its key, and the URL
    under the key url unless [dwd_fingerprint] has an entry of that key,
    which then replaces it. *)
Theorem parse_exports_fingerprint (path : option string) (u : string)
    (cls : Cls) :
  given (Some u) = true ->
  get_parser (basename (path_or_url path (Some u))) = Some cls ->
  NoDup (map fst (dwd_fingerprint (downloaded_path cls path u))) ->
  exists fp,
    In (Export (parsed cls path (Some u)) (Some fp))
       (calls (run path (Some u) true)) /\
    (forall k v, In (k, v) (dwd_fingerprint (downloaded_path cls path u)) ->
                 dict_get Value k fp = Some v) /\
    (~ In "url" (map fst (dwd_fingerprint (downloaded_path cls path u))) ->
     dict_get Value "url" fp = Some (of_str u)).
Proof.
  intros Hu Hcls Hnd.
  exists (dict_merge Value [("url", of_str u)]
            (dwd_fingerprint (downloaded_path cls path u))).
  split; [|split].
  - unfold parse. rewrite Hu, andb_false_r, Hcls. cbn [calls fst snd].
    simpl. auto 10.
  - intros k v Hin. apply dict_merge_entry; assumption.
  - intros Hn. rewrite dict_merge_other by exact Hn. reflexivity.
Qed.


End Properties.

Import ParseScenario.

Lemma parse_exports_fingerprint_witness :
  exists fp,
    In (Export [1; 2; 3] (Some fp))
       (calls (ParseScenario.run None (Some observations_url) true)) /\
    (forall k v, In (k, v) (stat "/tmp/stundenwerte_TU_01234_akt.zip") ->
                 dict_get string k fp = Some v) /\
    (~ In "url" (map fst (stat "/tmp/stundenwerte_TU_01234_akt.zip")) ->
     dict_get string "url" fp = Some observations_url).
Proof.
  apply (parse_exports_fingerprint string Z string classes fetch stat read
           (fun s => s) None observations_url "ObservationsParser").
  - reflexivity.
  - reflexivity.
  - repeat constructor; simpl; intuition discriminate.
Defined.

End ParseFacts.
